(** * Projection and rendering core of the 3D-to-2D CAD converter

    A shallow embedding of [CADConverter] from [main.py]: the projector
    ([get_projection]), the geometry extractors ([get_outline_edges],
    [get_filled_projection]), the canvas normalizer ([normalize_coords])
    and the three encoders ([to_dxf], [to_svg], [to_png]).

    Numbers.  The source computes on numpy [float64] arrays.  In the
    converter below coordinates are exact rationals [Q]: every finite
    double is a rational, and array arithmetic is read as exact field
    arithmetic.  Equality of computed coordinates is [Qeq] ([==]), taken
    componentwise on points.  Rounding, overflow and the non-finite
    values of IEEE arithmetic are studied on a second copy of the
    normalizer, [F64.normalize_coords], which runs the same operations on
    binary64 floats; statements of the exact model that bound or compare
    normalized coordinates carry the magnitudes and the tolerance under
    which they also hold of the binary64 run.  The values
    [np.cos(angle)] and [np.sin(angle)] of the isometric view are
    parameters [cos_a], [sin_a] of the development.

    Effects.  Python exceptions are a result type; an encoder returns
    [Ok doc] when control reaches its final save call with document
    [doc], and [Raise e] when an exception escapes before that call, in
    which case nothing has been written. *)

From Stdlib Require Import String Bool ZArith Lia QArith Qminmax Lqa List Floats.
Import ListNotations.
Open Scope Q_scope.

(** ** Exceptions and the result monad *)

Inductive exn : Type :=
| ValueError   (* numpy reductions and [vstack] on an empty input *)
| IndexError.  (* array index out of bounds *)

Inductive result (A : Type) : Type :=
| Ok (a : A)
| Raise (e : exn).
Arguments Ok {A} a.
Arguments Raise {A} e.

Definition bind {A B : Type} (r : result A) (k : A -> result B) : result B :=
  match r with
  | Ok a => k a
  | Raise e => Raise e
  end.

Notation "x <- r ;; k" := (bind r (fun x => k))
  (at level 61, r at next level, right associativity).
Notation "' pat <- r ;; k" := (bind r (fun x => match x with pat => k end))
  (at level 61, pat pattern, r at next level, right associativity).

(** A [for] loop that builds a list, stopping at the first exception. *)
Fixpoint mapM {A B : Type} (f : A -> result B) (l : list A) : result (list B) :=
  match l with
  | [] => Ok []
  | a :: l' =>
      b <- f a ;;
      bs <- mapM f l' ;;
      Ok (b :: bs)
  end.

(** [arr[i]] on the first axis of an array, for a non-negative index
    (numpy wraps a negative one; the faces and unique edges of a mesh
    hold none). *)
Definition getitem {A : Type} (arr : list A) (i : nat) : result A :=
  match nth_error arr i with
  | Some a => Ok a
  | None => Raise IndexError
  end.

(** ** Data model *)

Definition point3 : Type := Q * Q * Q.
Definition point2 : Type := Q * Q.
Definition matrix3 : Type := point3 * point3 * point3.

(** The part of [trimesh.Trimesh] the converter reads: the vertex array,
    the face array (index triples) and the [edges_unique] attribute
    (index pairs), which the mesh library derives from the faces. *)
Record Trimesh : Type := {
  vertices : list point3;
  faces : list (nat * nat * nat);
  edges_unique : list (nat * nat)
}.

(** The invariant of the mesh model: every index is below the vertex count. *)
Definition face_in_range (n : nat) (f : nat * nat * nat) : Prop :=
  let '(a, b, c) := f in (a < n)%nat /\ (b < n)%nat /\ (c < n)%nat.
Definition edge_in_range (n : nat) (e : nat * nat) : Prop :=
  (fst e < n)%nat /\ (snd e < n)%nat.
Definition mesh_wf (m : Trimesh) : Prop :=
  Forall (face_in_range (length (vertices m))) (faces m) /\
  Forall (edge_in_range (length (vertices m))) (edges_unique m).

(** Componentwise equality of computed coordinates. *)
Definition pt_eq (p q : point2) : Prop := fst p == fst q /\ snd p == snd q.
Definition pt3_eq (p q : point3) : Prop :=
  fst (fst p) == fst (fst q) /\ snd (fst p) == snd (fst q) /\ snd p == snd q.

(** ** Small array operations *)

(** Column [k] of a row of a three-column array. *)
Definition axis (k : nat) (v : point3) : Q :=
  let '(x, y, z) := v in
  match k with
  | O => x
  | S O => y
  | _ => z
  end.

(** [arr[:, [i, j]]] *)
Definition take_columns (i j : nat) (arr : list point3) : list point2 :=
  map (fun v => (axis i v, axis j v)) arr.

(** [m.T] *)
Definition transpose (m : matrix3) : matrix3 :=
  let '((a, b, c), (d, e, f), (g, h, i)) := m in
  ((a, d, g), (b, e, h), (c, f, i)).

(** One row of [arr @ m]. *)
Definition row_matmul (v : point3) (m : matrix3) : point3 :=
  let '(x, y, z) := v in
  let '((a, b, c), (d, e, f), (g, h, i)) := m in
  (x * a + y * d + z * g, x * b + y * e + z * h, x * c + y * f + z * i).

(** [arr @ m] *)
Definition matmul (arr : list point3) (m : matrix3) : list point3 :=
  map (fun v => row_matmul v m) arr.

(** The minimum and the maximum of one column whose first entry is [x0]. *)
Definition column_min (x0 : Q) (xs : list Q) : Q := fold_left Qmin xs x0.
Definition column_max (x0 : Q) (xs : list Q) : Q := fold_left Qmax xs x0.

(** [points.min(axis=0)] and [points.max(axis=0)]: numpy refuses to reduce
    an array with no rows. *)
Definition array_min (points : list point2) : result point2 :=
  match points with
  | [] => Raise ValueError
  | p0 :: rest => Ok (column_min (fst p0) (map fst rest),
                      column_min (snd p0) (map snd rest))
  end.

Definition array_max (points : list point2) : result point2 :=
  match points with
  | [] => Raise ValueError
  | p0 :: rest => Ok (column_max (fst p0) (map fst rest),
                      column_max (snd p0) (map snd rest))
  end.

(** [np.where(r == 0, 1, r)] on one entry. *)
Definition where_zero_one (r : Q) : Q := if Qeq_bool r 0 then 1 else r.

(** Python's builtin [max] over the two entries of [range_vals]: the first
    entry is kept unless the second is strictly greater. *)
Definition py_max (a b : Q) : Q := if Qlt_le_dec a b then b else a.

(** [np.vstack] of a list of rows. *)
Definition vstack {A : Type} (rows : list A) : result (list A) :=
  match rows with
  | [] => Raise ValueError
  | _ => Ok rows
  end.

(** ** Output documents *)

Inductive dxf_entity : Type :=
| DxfLine (start finish : point2)
| DxfLwPolyline (points : list point2) (close : bool).

Definition dxf_doc : Type := list dxf_entity.

Inductive svg_element : Type :=
| SvgRect (insert : Z * Z) (size : Z * Z) (fill : string)
| SvgPolygon (points : list point2) (fill stroke : string) (stroke_width : Q)
| SvgLine (start finish : point2) (stroke : string) (stroke_width : Q).

Record svg_doc : Type := {
  svg_size : Z * Z;
  svg_elements : list svg_element
}.

Inductive color : Type :=
| Named (name : string)
| RGB (r g b : Z).

Inductive draw_op : Type :=
| DrawPolygon (points : list point2) (fill outline : color)
| DrawLine (points : list point2) (fill : color) (width : Z).

Record png_image : Type := {
  img_size : Z * Z;
  img_background : color;
  img_ops : list draw_op
}.

(** ** The converter *)

Section Converter.

(** [cos_a, sin_a = np.cos(angle), np.sin(angle)] for [angle = np.radians(45)]. *)
Variables cos_a sin_a : Q.

Definition rot_z : matrix3 :=
  ((cos_a, - sin_a, 0),
   (sin_a, cos_a, 0),
   (0, 0, 1)).

Definition get_projection (mesh : Trimesh) (view : string) : list point2 :=
  let vertices := vertices mesh in
  if (view =? "top")%string then take_columns 0 1 vertices
  else if (view =? "front")%string then take_columns 0 2 vertices
  else if (view =? "side")%string then take_columns 1 2 vertices
  else if (view =? "isometric")%string then
    let vertices := matmul vertices (transpose rot_z) in
    take_columns 0 2 vertices
  else take_columns 0 1 vertices.

Definition get_outline_edges (mesh : Trimesh) (view : string)
  : result (list (point2 * point2)) :=
  let projection := get_projection mesh view in
  mapM (fun edge : nat * nat =>
          p1 <- getitem projection (fst edge) ;;
          p2 <- getitem projection (snd edge) ;;
          Ok (p1, p2))
       (edges_unique mesh).

(** [arr[face]] for an index triple [face]. *)
Definition take_face {A : Type} (arr : list A) (face : nat * nat * nat)
  : result (list A) :=
  let '(a, b, c) := face in mapM (getitem arr) [a; b; c].

Definition get_filled_projection (mesh : Trimesh) (view : string)
  : result (list point2 * list (list point2)) :=
  let projection := get_projection mesh view in
  projected_faces <- mapM (take_face projection) (faces mesh) ;;
  Ok (projection, projected_faces).

Definition normalize_coords (points : list point2) (size margin : Z)
  : result (list point2 * Q) :=
  min_vals <- array_min points ;;
  max_vals <- array_max points ;;
  let range_vals := (fst max_vals - fst min_vals,
                     snd max_vals - snd min_vals) in
  let range_vals := (where_zero_one (fst range_vals),
                     where_zero_one (snd range_vals)) in
  let scale := inject_Z (size - 2 * margin)
               / py_max (fst range_vals) (snd range_vals) in
  let normalized :=
    map (fun p => ((fst p - fst min_vals) * scale + inject_Z margin,
                   (snd p - snd min_vals) * scale + inject_Z margin))
        points in
  Ok (normalized, scale).

(** The default of [normalize_coords]'s [margin] argument. *)
Definition default_margin : Z := 50.

Definition to_dxf (mesh : Trimesh) (view mode : string) : result dxf_doc :=
  if (mode =? "filled")%string then
    '(projection, faces) <- get_filled_projection mesh view ;;
    Ok (map (fun face => DxfLwPolyline (map (fun p => (fst p, snd p)) face) true)
            faces)
  else
    edges <- get_outline_edges mesh view ;;
    Ok (map (fun e => DxfLine (fst (fst e), snd (fst e))
                              (fst (snd e), snd (snd e)))
            edges).

(** The vertical flip [(float(p[0]), float(size - p[1]))]. *)
Definition flip_y (size : Z) (p : point2) : point2 :=
  (fst p, inject_Z size - snd p).

(** The edge loop of the markup and raster encoders: [point_idx] walks
    the normalized array two entries at a time, once per edge. *)
Fixpoint edge_loop {A B : Type} (draw : point2 -> point2 -> B)
    (edges : list A) (normalized : list point2) (point_idx : nat)
  : result (list B) :=
  match edges with
  | [] => Ok []
  | _ :: edges' =>
      p1 <- getitem normalized point_idx ;;
      p2 <- getitem normalized (point_idx + 1) ;;
      rest <- edge_loop draw edges' normalized (point_idx + 2) ;;
      Ok (draw p1 p2 :: rest)
  end.

(** [[p for edge in edges for p in edge]] *)
Definition flatten_edges (edges : list (point2 * point2)) : list point2 :=
  flat_map (fun edge => [fst edge; snd edge]) edges.

Definition to_svg (mesh : Trimesh) (view : string) (size : Z) (mode : string)
  : result svg_doc :=
  let background := SvgRect (0, 0)%Z (size, size) "white" in
  if (mode =? "filled")%string then
    '(projection, _) <- get_filled_projection mesh view ;;
    '(normalized, scale) <- normalize_coords projection size default_margin ;;
    polygons <- mapM (fun face_indices =>
                        face_points <- take_face normalized face_indices ;;
                        Ok (SvgPolygon (map (flip_y size) face_points)
                                       "lightgray" "black" (1 # 2)))
                     (faces mesh) ;;
    Ok {| svg_size := (size, size); svg_elements := background :: polygons |}
  else
    edges <- get_outline_edges mesh view ;;
    all_points <- vstack (flatten_edges edges) ;;
    '(normalized, scale) <- normalize_coords all_points size default_margin ;;
    lines <- edge_loop (fun p1 p2 => SvgLine (flip_y size p1) (flip_y size p2)
                                             "black" (3 # 2))
                       edges normalized 0 ;;
    Ok {| svg_size := (size, size); svg_elements := background :: lines |}.

(** The raster encoder, for a canvas [Image.new] can allocate: a negative
    [size] is refused there with ValueError before anything is drawn. *)
Definition to_png (mesh : Trimesh) (view : string) (size : Z) (mode : string)
  : result png_image :=
  if (mode =? "filled")%string then
    '(projection, _) <- get_filled_projection mesh view ;;
    '(normalized, scale) <- normalize_coords projection size default_margin ;;
    polygons <- mapM (fun face_indices =>
                        face_points <- take_face normalized face_indices ;;
                        Ok (DrawPolygon (map (flip_y size) face_points)
                                        (RGB 200 200 200) (RGB 0 0 0)))
                     (faces mesh) ;;
    Ok {| img_size := (size, size); img_background := Named "white";
          img_ops := polygons |}
  else
    edges <- get_outline_edges mesh view ;;
    all_points <- vstack (flatten_edges edges) ;;
    '(normalized, scale) <- normalize_coords all_points size default_margin ;;
    lines <- edge_loop (fun p1 p2 => DrawLine [flip_y size p1; flip_y size p2]
                                              (Named "black") 2)
                       edges normalized 0 ;;
    Ok {| img_size := (size, size); img_background := Named "white";
          img_ops := lines |}.

End Converter.


(** ** Notions used to state the properties *)

(** [m] is the least entry of the column [xs]; [M] is its greatest. *)
Definition is_min_of (m : Q) (xs : list Q) : Prop :=
  In m xs /\ Forall (fun x => m <= x) xs.
Definition is_max_of (M : Q) (xs : list Q) : Prop :=
  In M xs /\ Forall (fun x => x <= M) xs.

(** An axis range after the zero-range rule: a zero range becomes 1, any
    other range is kept. *)
Definition floored_range (raw r : Q) : Prop :=
  (raw == 0 -> r = 1) /\ (~ raw == 0 -> r = raw).

(** The point set moved by the constant vector [t]. *)
Definition translate (t : point2) (points : list point2) : list point2 :=
  map (fun p => (fst p + fst t, snd p + snd t)) points.

(** The affine map [p |-> (p - min_vals) * scale + margin]. *)
Definition affine (min_vals : point2) (scale : Q) (margin : Z) (p : point2)
  : point2 :=
  ((fst p - fst min_vals) * scale + inject_Z margin,
   (snd p - snd min_vals) * scale + inject_Z margin).

(** The divisor of [scale]: Python's [max] of the two floored ranges of the
    bounding box. *)
Definition divisor (min_vals max_vals : point2) : Q :=
  py_max (where_zero_one (fst max_vals - fst min_vals))
         (where_zero_one (snd max_vals - snd min_vals)).


(** Every vertex of a drawn primitive is the point [c].  The background
    rectangle of the markup document is not a primitive. *)
Definition svg_drawn_at (c : point2) (e : svg_element) : Prop :=
  match e with
  | SvgRect _ _ _ => False
  | SvgPolygon points _ _ _ => Forall (fun q => pt_eq q c) points
  | SvgLine p1 p2 _ _ => pt_eq p1 c /\ pt_eq p2 c
  end.

Definition png_drawn_at (c : point2) (d : draw_op) : Prop :=
  match d with
  | DrawPolygon points _ _ => Forall (fun q => pt_eq q c) points
  | DrawLine points _ _ => Forall (fun q => pt_eq q c) points
  end.

(** Edge-only primitives of each format. *)
Definition is_dxf_line (e : dxf_entity) : bool :=
  match e with DxfLine _ _ => true | _ => false end.
Definition is_svg_line (e : svg_element) : bool :=
  match e with SvgLine _ _ _ _ => true | _ => false end.
Definition is_draw_line (d : draw_op) : bool :=
  match d with DrawLine _ _ _ => true | _ => false end.

(** The binary64 values nearest to cos 45 degrees and sin 45 degrees
    (0.7071067811865476 and 0.7071067811865475), as rationals. *)
Definition cos_45 : Q := 6369051672525773 # 9007199254740992.
Definition sin_45 : Q := 6369051672525772 # 9007199254740992.

(** ** Sample meshes *)

(** The mesh whose only vertex is (1, 0, 0). *)
Definition unit_x_mesh : Trimesh :=
  {| vertices := [(1, 0, 0)]; faces := []; edges_unique := [] |}.

(** The mesh with no vertices, faces or edges. *)
Definition empty_mesh : Trimesh :=
  {| vertices := []; faces := []; edges_unique := [] |}.

(** Vertices without any face or edge. *)
Definition points_only_mesh : Trimesh :=
  {| vertices := [(0, 0, 0); (1, 2, 3)]; faces := []; edges_unique := [] |}.

(** One triangle in space, with its three unique edges. *)
Definition triangle_mesh : Trimesh :=
  {| vertices := [(0, 0, 0); (4, 0, 1); (0, 2, 3)];
     faces := [(0, 1, 2)%nat];
     edges_unique := [(0, 1)%nat; (1, 2)%nat; (0, 2)%nat] |}.

(** Two computations end the same way: both return, or both raise the
    same exception. *)
Definition same_outcome {A B : Type} (r1 : result A) (r2 : result B) : Prop :=
  match r1, r2 with
  | Ok _, Ok _ => True
  | Raise e1, Raise e2 => e1 = e2
  | _, _ => False
  end.

(** ** The conversion endpoints *)

(** Formats the mesh library reads natively, formats that need a
    conversion first, and their union. *)
Definition NATIVE_FORMATS : list string :=
  [".stl"; ".obj"; ".ply"; ".off"; ".glb"; ".gltf"]%string.
Definition STEP_FORMATS : list string := [".step"; ".stp"]%string.
Definition ALL_FORMATS : list string := NATIVE_FORMATS ++ STEP_FORMATS.

(** [s in formats] *)
Definition mem_string (s : string) (formats : list string) : bool :=
  existsb (String.eqb s) formats.

(** The file an encoder saved. *)
Inductive output : Type :=
| DxfFile (doc : dxf_doc)
| SvgFile (doc : svg_doc)
| PngFile (img : png_image).

(** What an endpoint answers: a served file, a served archive (its
    members in the order they were written), or an [HTTPException]. *)
Inductive response : Type :=
| FileResponse (filename media_type : string) (body : output)
| ZipResponse (filename : string) (members : list (string * output))
| HTTPException (status_code : Z).

(** The declared bounds of the [size] query parameter, [ge=100] and
    [le=4000]. *)
Definition size_accepted (size : Z) : bool :=
  ((100 <=? size) && (size <=? 4000))%Z.

Section Endpoints.

Variables cos_a sin_a : Q.

(** [try: ... except Exception: raise HTTPException(status_code=500)] *)
Definition or_500 (r : result response) : response :=
  match r with
  | Ok resp => resp
  | Raise _ => HTTPException 500
  end.

(** [convert_cad].  [file_ext] is [Path(file.filename).suffix.lower()],
    [stem] is [Path(file.filename).stem], and [loaded] is what
    [CADConverter.load_3d_model] does on the uploaded file: it returns a
    mesh or raises ValueError, having caught every other exception. *)
Definition convert_cad (file_ext stem : string) (loaded : result Trimesh)
    (output_format view : string) (size : Z) (mode : string) : response :=
  if negb (mem_string file_ext ALL_FORMATS) then HTTPException 400
  else
    let output_filename :=
      (stem ++ "_" ++ view ++ "_" ++ mode ++ "." ++ output_format)%string in
    or_500
      (mesh <- loaded ;;
       if (output_format =? "dxf")%string then
         doc <- to_dxf cos_a sin_a mesh view mode ;;
         Ok (FileResponse output_filename "application/dxf" (DxfFile doc))
       else if (output_format =? "svg")%string then
         doc <- to_svg cos_a sin_a mesh view size mode ;;
         Ok (FileResponse output_filename "image/svg+xml" (SvgFile doc))
       else
         img <- to_png cos_a sin_a mesh view size mode ;;
         Ok (FileResponse output_filename "image/png" (PngFile img))).

(** [batch_convert]: one archive member per view and format, views in the
    outer loop, formats in the inner loop. *)
Definition batch_convert (file_ext stem : string) (loaded : result Trimesh)
    (output_formats views : list string) (size : Z) (mode : string)
  : response :=
  if negb (mem_string file_ext ALL_FORMATS) then HTTPException 400
  else
    or_500
      (mesh <- loaded ;;
       members <-
         mapM (fun view =>
                 mapM (fun fmt =>
                         let fname :=
                           (stem ++ "_" ++ view ++ "_" ++ mode ++ "." ++ fmt)%string in
                         if (fmt =? "dxf")%string then
                           doc <- to_dxf cos_a sin_a mesh view mode ;;
                           Ok (fname, DxfFile doc)
                         else if (fmt =? "svg")%string then
                           doc <- to_svg cos_a sin_a mesh view size mode ;;
                           Ok (fname, SvgFile doc)
                         else
                           img <- to_png cos_a sin_a mesh view size mode ;;
                           Ok (fname, PngFile img))
                      output_formats)
              views ;;
       Ok (ZipResponse (stem ++ "_batch.zip")%string (concat members))).

End Endpoints.
(** ** Inputs on which binary64 stays finite

    The rational model has no overflow and no rounding.  A statement that
    bounds or pins down a normalized coordinate is made for inputs on
    which the binary64 run of [normalize_coords] stays finite as well,
    and with a tolerance where rounding can move the result. *)

(** Coordinates of magnitude at most [2^1000]: their differences are
    finite doubles. *)
Definition coordinate_bound : Q := inject_Z (2 ^ 1000).

Definition bounded (x : Q) : Prop :=
  - coordinate_bound <= x /\ x <= coordinate_bound.
Definition bounded_point (p : point2) : Prop :=
  bounded (fst p) /\ bounded (snd p).





(** [moved] is [points] with the vector [t] added to every point, each
    coordinate of [moved] being the sum itself, without rounding. *)
Definition translated_by (t : point2) (points moved : list point2) : Prop :=
  Forall2 (fun p p' => fst p' == fst p + fst t /\ snd p' == snd p + snd t)
          points moved.

(** ** The normalizer in binary64

    [normalize_coords] once more, operation by operation, on primitive
    binary64 floats: every subtraction, division, multiplication and
    addition below is the correctly rounded IEEE 754 operation numpy
    performs, with its infinities and NaN.  The Python integers
    [size - 2 * margin] and [margin] enter the arithmetic through
    [of_int]. *)

Module F64.
Local Open Scope float_scope.

Definition point2 : Type := float * float.

(** The double nearest to a Python [int]. *)
Definition of_int (z : Z) : float :=
  SF2Prim (binary_normalize prec emax z 0 false).

(** numpy's [minimum] and [maximum] on two doubles, as the reductions
    [min] and [max] apply them to the running value [a] and the next
    entry [b]: [a] is kept when it compares below (above) [b] or is NaN. *)
Definition np_minimum (a b : float) : float :=
  if (a <=? b) || is_nan a then a else b.
Definition np_maximum (a b : float) : float :=
  if (b <=? a) || is_nan a then a else b.

Definition column_min (x0 : float) (xs : list float) : float :=
  fold_left np_minimum xs x0.
Definition column_max (x0 : float) (xs : list float) : float :=
  fold_left np_maximum xs x0.

(** [points.min(axis=0)] and [points.max(axis=0)] *)
Definition array_min (points : list point2) : result point2 :=
  match points with
  | [] => Raise ValueError
  | p0 :: rest => Ok (column_min (fst p0) (map fst rest),
                      column_min (snd p0) (map snd rest))
  end.

Definition array_max (points : list point2) : result point2 :=
  match points with
  | [] => Raise ValueError
  | p0 :: rest => Ok (column_max (fst p0) (map fst rest),
                      column_max (snd p0) (map snd rest))
  end.

(** [np.where(r == 0, 1, r)] on one entry; [-0.0 == 0] holds, [nan == 0]
    does not. *)
Definition where_zero_one (r : float) : float := if r =? 0 then 1 else r.

(** Python's builtin [max] over the two entries of [range_vals]. *)
Definition py_max (a b : float) : float := if a <? b then b else a.

Definition normalize_coords (points : list point2) (size margin : Z)
  : result (list point2 * float) :=
  min_vals <- array_min points ;;
  max_vals <- array_max points ;;
  let range_vals := (fst max_vals - fst min_vals,
                     snd max_vals - snd min_vals) in
  let range_vals := (where_zero_one (fst range_vals),
                     where_zero_one (snd range_vals)) in
  let scale := of_int (size - 2 * margin)
               / py_max (fst range_vals) (snd range_vals) in
  let normalized :=
    map (fun p => ((fst p - fst min_vals) * scale + of_int margin,
                   (snd p - snd min_vals) * scale + of_int margin))
        points in
  Ok (normalized, scale).

(** The vertical flip [(float(p[0]), float(size - p[1]))]. *)
Definition flip_y (size : Z) (p : point2) : point2 :=
  (fst p, of_int size - snd p).

(** The array [points + t]. *)
Definition translate (t : point2) (points : list point2) : list point2 :=
  map (fun p => (fst p + fst t, snd p + snd t)) points.

(** Both coordinates are finite doubles. *)
Definition finite_point (p : point2) : Prop :=
  is_finite (fst p) = true /\ is_finite (snd p) = true.

(** The classes of a double, read on its specification. *)
Definition sf_is_nan (x : spec_float) : bool :=
  match x with S754_nan => true | _ => false end.
Definition sf_is_zero (x : spec_float) : bool :=
  match x with S754_zero _ => true | _ => false end.
Definition sf_is_finite (x : spec_float) : bool :=
  match x with S754_zero _ | S754_finite _ _ _ => true | _ => false end.

End F64.
(** * Properties *)

(** ** The result monad and array indexing *)

Lemma getitem_Ok {A : Type} (arr : list A) (i : nat) (a : A) :
  getitem arr i = Ok a <-> nth_error arr i = Some a.
Proof.
  unfold getitem. destruct (nth_error arr i); split; congruence.
Qed.

Lemma getitem_in_range {A : Type} (arr : list A) (i : nat) :
  (i < length arr)%nat -> exists a, getitem arr i = Ok a.
Proof.
  intros Hi. unfold getitem.
  destruct (nth_error arr i) eqn:E; [eauto|].
  apply nth_error_None in E. lia.
Qed.

Lemma getitem_out_of_range {A : Type} (arr : list A) (i : nat) :
  (length arr <= i)%nat -> getitem arr i = Raise IndexError.
Proof.
  intros Hi. unfold getitem.
  now rewrite (proj2 (nth_error_None arr i) Hi).
Qed.

Lemma getitem_map {A B : Type} (f : A -> B) (arr : list A) (i : nat) (a : A) :
  getitem arr i = Ok a -> getitem (map f arr) i = Ok (f a).
Proof.
  rewrite !getitem_Ok. intros H. now rewrite nth_error_map, H.
Qed.

Lemma mapM_length {A B : Type} (f : A -> result B) (l : list A) (bs : list B) :
  mapM f l = Ok bs -> length bs = length l.
Proof.
  revert bs. induction l as [|a l IH]; simpl; intros bs H.
  - now inversion H.
  - destruct (f a); simpl in H; [|discriminate].
    destruct (mapM f l); simpl in H; [|discriminate].
    inversion H; subst. simpl. f_equal. now apply IH.
Qed.

Lemma mapM_nth {A B : Type} (f : A -> result B) (l : list A) (bs : list B) :
  mapM f l = Ok bs ->
  forall k a, nth_error l k = Some a ->
  exists b, nth_error bs k = Some b /\ f a = Ok b.
Proof.
  revert bs. induction l as [|a0 l IH]; simpl; intros bs H k a Hk.
  - destruct k; discriminate.
  - destruct (f a0) eqn:Ef; simpl in H; [|discriminate].
    destruct (mapM f l) eqn:El; simpl in H; [|discriminate].
    inversion H; subst. destruct k as [|k]; simpl in *.
    + inversion Hk; subst. eauto.
    + eapply IH; eauto.
Qed.

Lemma mapM_total {A B : Type} (f : A -> result B) (l : list A) :
  Forall (fun a => exists b, f a = Ok b) l -> exists bs, mapM f l = Ok bs.
Proof.
  induction 1 as [|a l [b Hb] _ [bs Hbs]]; simpl.
  - eauto.
  - rewrite Hb, Hbs. simpl. eauto.
Qed.

Lemma mapM_nil {A B : Type} (f : A -> result B) : mapM f [] = Ok [].
Proof. reflexivity. Qed.

(** Inversion of a successful run: every bound computation of [H] returned
    [Ok], and tuple patterns are opened. *)
Ltac bind_inv H :=
  repeat match type of H with
    | bind ?r _ = Ok _ =>
        let E := fresh "E" in
        destruct r eqn:E; cbn [bind] in H; [|discriminate H]
    | match ?x with (_, _) => _ end = Ok _ => destruct x
    end.

(** ** Projection *)

Lemma take_columns_length (i j : nat) (arr : list point3) :
  length (take_columns i j arr) = length arr.
Proof. apply length_map. Qed.

Lemma get_projection_is_map (cos_a sin_a : Q) (mesh : Trimesh) (view : string) :
  exists f : point3 -> point2,
    get_projection cos_a sin_a mesh view = map f (vertices mesh).
Proof.
  unfold get_projection, take_columns, matmul.
  repeat match goal with |- context [if ?b then _ else _] => destruct b end;
    try (eexists; reflexivity).
  rewrite map_map. eexists; reflexivity.
Qed.

Lemma get_projection_length (cos_a sin_a : Q) (mesh : Trimesh) (view : string) :
  length (get_projection cos_a sin_a mesh view) = length (vertices mesh).
Proof.
  destruct (get_projection_is_map cos_a sin_a mesh view) as [f ->].
  apply length_map.
Qed.

Lemma get_projection_unknown_view (cos_a sin_a : Q) (mesh : Trimesh) (view : string) :
  view <> "top"%string -> view <> "front"%string ->
  view <> "side"%string -> view <> "isometric"%string ->
  get_projection cos_a sin_a mesh view = get_projection cos_a sin_a mesh "top".
Proof.
  intros Ht Hf Hs Hi. unfold get_projection.
  apply String.eqb_neq in Ht, Hf, Hs, Hi.
  now rewrite Ht, Hf, Hs, Hi.
Qed.

(** C1. [get_projection] returns one 2D point per vertex, in vertex order
    (for every view the output is the vertex array mapped through one
    function of the vertex alone); 'top' keeps coordinates (x, y), 'front'
    keeps (x, z), 'side' keeps (y, z); a view outside the four names is
    projected exactly as 'top'. *)
Theorem get_projection_index_aligned
    (cos_a sin_a : Q) (mesh : Trimesh) (view : string) :
  length (get_projection cos_a sin_a mesh view) = length (vertices mesh) /\
  (exists f : point3 -> point2, forall i,
      nth_error (get_projection cos_a sin_a mesh view) i
      = option_map f (nth_error (vertices mesh) i)) /\
  (forall i, nth_error (get_projection cos_a sin_a mesh "top") i
             = option_map (fun '(x, y, z) => (x, y)) (nth_error (vertices mesh) i)) /\
  (forall i, nth_error (get_projection cos_a sin_a mesh "front") i
             = option_map (fun '(x, y, z) => (x, z)) (nth_error (vertices mesh) i)) /\
  (forall i, nth_error (get_projection cos_a sin_a mesh "side") i
             = option_map (fun '(x, y, z) => (y, z)) (nth_error (vertices mesh) i)) /\
  (view <> "top"%string -> view <> "front"%string ->
   view <> "side"%string -> view <> "isometric"%string ->
   get_projection cos_a sin_a mesh view = get_projection cos_a sin_a mesh "top").
Proof.
  split; [apply get_projection_length|].
  split.
  { destruct (get_projection_is_map cos_a sin_a mesh view) as [f Hf].
    exists f. intros i. rewrite Hf. apply nth_error_map. }
  repeat split.
  - intros i. unfold get_projection, take_columns. simpl.
    rewrite nth_error_map.
    destruct (nth_error (vertices mesh) i) as [[[x y] z]|]; reflexivity.
  - intros i. unfold get_projection, take_columns. simpl.
    rewrite nth_error_map.
    destruct (nth_error (vertices mesh) i) as [[[x y] z]|]; reflexivity.
  - intros i. unfold get_projection, take_columns. simpl.
    rewrite nth_error_map.
    destruct (nth_error (vertices mesh) i) as [[[x y] z]|]; reflexivity.
  - apply get_projection_unknown_view.
Qed.

(** ** The isometric rotation *)

Lemma rotate_unit_x (cos_a sin_a : Q) :
  pt3_eq (row_matmul (1, 0, 0) (transpose (rot_z cos_a sin_a)))
         (cos_a, sin_a, 0).
Proof.
  unfold pt3_eq, row_matmul, transpose, rot_z; simpl.
  repeat split; ring.
Qed.

(** C2 (as the code has it). The rotation of the isometric view maps
    (1, 0, 0) to (cos_a, sin_a, 0) before axis selection, and keeping the
    first and third axes gives the 2D point (cos_a, 0). *)
Theorem isometric_unit_x (cos_a sin_a : Q) :
  pt3_eq (row_matmul (1, 0, 0) (transpose (rot_z cos_a sin_a)))
         (cos_a, sin_a, 0) /\
  exists p, get_projection cos_a sin_a unit_x_mesh "isometric" = [p] /\
            pt_eq p (cos_a, 0).
Proof.
  split; [apply rotate_unit_x|].
  eexists; split; [reflexivity|].
  unfold pt_eq; simpl. split; ring.
Qed.

(** C2 (as stated) fails: at the 45 degree values the rotated point is not
    (cos, 0, sin), and the projected point is not (cos, sin). *)
Lemma isometric_unit_x_not_cos_0_sin :
  (pt3_eq (row_matmul (1, 0, 0) (transpose (rot_z cos_45 sin_45)))
          (cos_45, 0, sin_45) -> False) /\
  (Forall2 pt_eq (get_projection cos_45 sin_45 unit_x_mesh "isometric")
           [(cos_45, sin_45)] -> False).
Proof.
  split.
  - intros (_ & H & _). vm_compute in H. discriminate.
  - intros H. inversion H as [|p q l l' [_ Hy] _]; subst.
    vm_compute in Hy. discriminate.
Qed.

(** ** Column minima and maxima *)

Lemma Qmin_cases (a b : Q) : Qmin a b = a \/ Qmin a b = b.
Proof.
  unfold Qmin, GenericMinMax.gmin. destruct (a ?= b); auto.
Qed.

Lemma Qmax_cases (a b : Q) : Qmax a b = a \/ Qmax a b = b.
Proof.
  unfold Qmax, GenericMinMax.gmax. destruct (a ?= b); auto.
Qed.

Lemma column_min_spec (xs : list Q) (x0 : Q) :
  is_min_of (column_min x0 xs) (x0 :: xs).
Proof.
  unfold column_min. revert x0.
  induction xs as [|x xs IH]; intros x0; simpl.
  - split; [now left|]. repeat constructor. apply Qle_refl.
  - destruct (IH (Qmin x0 x)) as [Hin Hall]. split.
    + destruct Hin as [Hin|Hin]; [|now right; right].
      rewrite <- Hin. destruct (Qmin_cases x0 x) as [->| ->]; simpl; auto.
    + inversion Hall as [|y ys Hhd Htl]; subst.
      constructor; [|constructor; [|assumption]].
      * eapply Qle_trans; [exact Hhd|apply Q.le_min_l].
      * eapply Qle_trans; [exact Hhd|apply Q.le_min_r].
Qed.

Lemma column_max_spec (xs : list Q) (x0 : Q) :
  is_max_of (column_max x0 xs) (x0 :: xs).
Proof.
  unfold column_max. revert x0.
  induction xs as [|x xs IH]; intros x0; simpl.
  - split; [now left|]. repeat constructor. apply Qle_refl.
  - destruct (IH (Qmax x0 x)) as [Hin Hall]. split.
    + destruct Hin as [Hin|Hin]; [|now right; right].
      rewrite <- Hin. destruct (Qmax_cases x0 x) as [->| ->]; simpl; auto.
    + inversion Hall as [|y ys Hhd Htl]; subst.
      constructor; [|constructor; [|assumption]].
      * eapply Qle_trans; [apply Q.le_max_l|exact Hhd].
      * eapply Qle_trans; [apply Q.le_max_r|exact Hhd].
Qed.

(** A least entry is determined up to [==]. *)
Lemma is_min_of_unique (xs : list Q) (m m' : Q) :
  is_min_of m xs -> is_min_of m' xs -> m == m'.
Proof.
  intros [Hin Hall] [Hin' Hall']. rewrite Forall_forall in Hall, Hall'.
  apply Qle_antisym; auto.
Qed.

Lemma is_max_of_unique (xs : list Q) (M M' : Q) :
  is_max_of M xs -> is_max_of M' xs -> M == M'.
Proof.
  intros [Hin Hall] [Hin' Hall']. rewrite Forall_forall in Hall, Hall'.
  apply Qle_antisym; auto.
Qed.


(** ** The zero-range rule and the divisor *)

Lemma where_zero_one_floored (r : Q) : floored_range r (where_zero_one r).
Proof.
  unfold floored_range, where_zero_one.
  destruct (Qeq_bool r 0) eqn:E; split; intros H; try reflexivity.
  - apply Qeq_bool_eq in E. contradiction.
  - apply Qeq_eq_bool in H. congruence.
Qed.



Lemma where_zero_one_compat (r r' : Q) :
  r == r' -> where_zero_one r == where_zero_one r'.
Proof.
  intros H. unfold where_zero_one.
  destruct (Qeq_bool r 0) eqn:E, (Qeq_bool r' 0) eqn:E'; try reflexivity; auto.
  - apply Qeq_bool_eq in E. apply Qeq_bool_neq in E'.
    exfalso. apply E'. now rewrite <- H.
  - apply Qeq_bool_eq in E'. apply Qeq_bool_neq in E.
    exfalso. apply E. now rewrite H.
Qed.

Lemma py_max_is_Qmax (a b : Q) : py_max a b == Qmax a b.
Proof.
  unfold py_max. destruct (Qlt_le_dec a b) as [H|H].
  - symmetry. apply Q.max_r. now apply Qlt_le_weak.
  - symmetry. apply Q.max_l. exact H.
Qed.



Lemma py_max_compat (a a' b b' : Q) :
  a == a' -> b == b' -> py_max a b == py_max a' b'.
Proof.
  intros Ha Hb. rewrite !py_max_is_Qmax. now rewrite Ha, Hb.
Qed.


(** ** The canvas normalizer *)

Lemma array_min_spec (points : list point2) :
  points <> [] ->
  exists min_vals, array_min points = Ok min_vals /\
    is_min_of (fst min_vals) (map fst points) /\
    is_min_of (snd min_vals) (map snd points).
Proof.
  destruct points as [|p0 rest]; [congruence|]. intros _.
  eexists; split; [reflexivity|]. simpl. split; apply column_min_spec.
Qed.

Lemma array_max_spec (points : list point2) :
  points <> [] ->
  exists max_vals, array_max points = Ok max_vals /\
    is_max_of (fst max_vals) (map fst points) /\
    is_max_of (snd max_vals) (map snd points).
Proof.
  destruct points as [|p0 rest]; [congruence|]. intros _.
  eexists; split; [reflexivity|]. simpl. split; apply column_max_spec.
Qed.

Lemma normalize_coords_eq (points : list point2) (size margin : Z)
    (min_vals max_vals : point2) :
  array_min points = Ok min_vals ->
  array_max points = Ok max_vals ->
  normalize_coords points size margin
  = Ok (map (affine min_vals
                    (inject_Z (size - 2 * margin) / divisor min_vals max_vals)
                    margin) points,
        inject_Z (size - 2 * margin) / divisor min_vals max_vals).
Proof.
  intros Hmin Hmax. unfold normalize_coords. rewrite Hmin, Hmax. reflexivity.
Qed.

Lemma normalize_coords_empty (size margin : Z) :
  normalize_coords [] size margin = Raise ValueError.
Proof. reflexivity. Qed.

Lemma normalize_coords_length (points normalized : list point2)
    (size margin : Z) (scale : Q) :
  normalize_coords points size margin = Ok (normalized, scale) ->
  length normalized = length points.
Proof.
  intros H.
  assert (Hne : points <> []) by (intros ->; discriminate).
  destruct (array_min_spec points Hne) as (mn & Hmn & _).
  destruct (array_max_spec points Hne) as (mx & Hmx & _).
  rewrite (normalize_coords_eq _ size margin _ _ Hmn Hmx) in H.
  injection H as <- _. apply length_map.
Qed.






(** ** Degenerate input *)

Lemma py_max_1_1 : py_max 1 1 = 1.
Proof. unfold py_max. destruct (Qlt_le_dec 1 1); reflexivity. Qed.

Lemma where_zero_one_zero (r : Q) : r == 0 -> where_zero_one r = 1.
Proof. intros H. now apply (where_zero_one_floored r). Qed.

(** C4. When all points of a non-empty set coincide, both axis ranges are
    zero and are replaced by 1, the divisor of [scale] is 1 (so nothing is
    divided by zero), [scale] is [(size - 2*margin) / 1], and every
    normalized point is [(margin, margin)]. *)
Theorem normalize_coords_degenerate
    (points : list point2) (p : point2) (size margin : Z) :
  points <> [] ->
  Forall (fun q => pt_eq q p) points ->
  exists min_vals max_vals normalized,
    array_min points = Ok min_vals /\
    array_max points = Ok max_vals /\
    fst max_vals - fst min_vals == 0 /\
    snd max_vals - snd min_vals == 0 /\
    where_zero_one (fst max_vals - fst min_vals) = 1 /\
    where_zero_one (snd max_vals - snd min_vals) = 1 /\
    divisor min_vals max_vals = 1 /\
    normalize_coords points size margin
    = Ok (normalized, inject_Z (size - 2 * margin) / 1) /\
    length normalized = length points /\
    Forall (fun q => pt_eq q (inject_Z margin, inject_Z margin)) normalized.
Proof.
  intros Hne Hall.
  destruct (array_min_spec points Hne) as (mn & Hmn & [Hx _] & [Hy _]).
  destruct (array_max_spec points Hne) as (mx & Hmx & [HX _] & [HY _]).
  rewrite Forall_forall in Hall.
  assert (Hcol : forall v, (In v (map fst points) -> v == fst p) /\
                           (In v (map snd points) -> v == snd p)).
  { intros v. split; intros Hv; apply in_map_iff in Hv;
      destruct Hv as (q & <- & Hq); apply (Hall q Hq). }
  apply Hcol in Hx, Hy, HX, HY.
  assert (Hrx : fst mx - fst mn == 0) by (rewrite Hx, HX; ring).
  assert (Hry : snd mx - snd mn == 0) by (rewrite Hy, HY; ring).
  assert (Hdiv : divisor mn mx = 1).
  { unfold divisor.
    rewrite (where_zero_one_zero _ Hrx), (where_zero_one_zero _ Hry).
    apply py_max_1_1. }
  exists mn, mx. eexists.
  split; [exact Hmn|]. split; [exact Hmx|].
  split; [exact Hrx|]. split; [exact Hry|].
  split; [now apply where_zero_one_zero|].
  split; [now apply where_zero_one_zero|].
  split; [exact Hdiv|].
  split.
  { rewrite (normalize_coords_eq _ size margin _ _ Hmn Hmx), Hdiv.
    reflexivity. }
  split; [apply length_map|].
  apply Forall_forall. intros q Hq. apply in_map_iff in Hq.
  destruct Hq as (q0 & <- & Hq0). destruct (Hall q0 Hq0) as [Hqx Hqy].
  unfold pt_eq, affine; simpl. rewrite Hqx, Hqy, Hx, Hy. split; ring.
Qed.

Lemma normalize_coords_degenerate_witness :
  exists min_vals max_vals normalized,
    array_min [(3, 7); (3, 7); (3, 7)] = Ok min_vals /\
    array_max [(3, 7); (3, 7); (3, 7)] = Ok max_vals /\
    fst max_vals - fst min_vals == 0 /\
    snd max_vals - snd min_vals == 0 /\
    where_zero_one (fst max_vals - fst min_vals) = 1 /\
    where_zero_one (snd max_vals - snd min_vals) = 1 /\
    divisor min_vals max_vals = 1 /\
    normalize_coords [(3, 7); (3, 7); (3, 7)] 1000 50
    = Ok (normalized, inject_Z (1000 - 2 * 50) / 1) /\
    length normalized = length [(3, 7); (3, 7); (3, 7)] /\
    Forall (fun q => pt_eq q (inject_Z 50, inject_Z 50)) normalized.
Proof.
  apply (normalize_coords_degenerate [(3, 7); (3, 7); (3, 7)] (3, 7) 1000 50).
  - discriminate.
  - repeat constructor; reflexivity.
Defined.

(** ** Translation *)







Lemma translated_by_translate (t : point2) (points : list point2) :
  translated_by t points (translate t points).
Proof.
  induction points as [|p points IH]; simpl; constructor; [|exact IH].
  cbn [fst snd]. split; reflexivity.
Qed.



(** ** Geometry extraction *)

Lemma mapM_Forall {A B : Type} (f : A -> result B) (P : B -> Prop)
    (l : list A) (bs : list B) :
  mapM f l = Ok bs ->
  (forall a b, In a l -> f a = Ok b -> P b) ->
  Forall P bs.
Proof.
  revert bs. induction l as [|a l IH]; simpl; intros bs H HP.
  - inversion H. constructor.
  - destruct (f a) as [b|] eqn:Ef; simpl in H; [|discriminate].
    destruct (mapM f l) as [bs'|] eqn:El; simpl in H; [|discriminate].
    inversion H; subst. constructor; [eauto|].
    apply IH; [reflexivity|]. eauto.
Qed.

Lemma mapM_pure {A B : Type} (f : A -> result B) (g : A -> B) (l : list A) :
  (forall a, In a l -> f a = Ok (g a)) -> mapM f l = Ok (map g l).
Proof.
  induction l as [|a l IH]; simpl; intros H; [reflexivity|].
  rewrite (H a (or_introl eq_refl)), IH by auto. reflexivity.
Qed.

Lemma take_face_total {A : Type} (arr : list A) (face : nat * nat * nat) :
  face_in_range (length arr) face -> exists pts, take_face arr face = Ok pts.
Proof.
  destruct face as [[a b] c]. intros (Ha & Hb & Hc).
  destruct (getitem_in_range arr a Ha) as [pa Ea].
  destruct (getitem_in_range arr b Hb) as [pb Eb].
  destruct (getitem_in_range arr c Hc) as [pc Ec].
  exists [pa; pb; pc]. simpl. now rewrite Ea, Eb, Ec.
Qed.

Lemma take_face_Ok {A : Type} (arr : list A) (a b c : nat) (pts : list A) :
  take_face arr (a, b, c) = Ok pts ->
  exists pa pb pc,
    nth_error arr a = Some pa /\ nth_error arr b = Some pb /\
    nth_error arr c = Some pc /\ pts = [pa; pb; pc].
Proof.
  simpl. intros H.
  destruct (getitem arr a) as [pa|] eqn:Ea; simpl in H; [|discriminate].
  destruct (getitem arr b) as [pb|] eqn:Eb; simpl in H; [|discriminate].
  destruct (getitem arr c) as [pc|] eqn:Ec; simpl in H; [|discriminate].
  apply getitem_Ok in Ea, Eb, Ec. inversion H; subst.
  exists pa, pb, pc. auto.
Qed.

Lemma take_face_In {A : Type} (arr : list A) (face : nat * nat * nat)
    (pts : list A) :
  take_face arr face = Ok pts -> Forall (fun p => In p arr) pts.
Proof.
  destruct face as [[a b] c]. intros H.
  apply take_face_Ok in H. destruct H as (pa & pb & pc & Ha & Hb & Hc & ->).
  repeat constructor; eapply nth_error_In; eassumption.
Qed.

Lemma get_outline_edges_total
    (cos_a sin_a : Q) (mesh : Trimesh) (view : string) :
  mesh_wf mesh -> exists edges, get_outline_edges cos_a sin_a mesh view = Ok edges.
Proof.
  intros [_ Hedges]. unfold get_outline_edges. apply mapM_total.
  eapply Forall_impl; [|exact Hedges].
  intros [i j] [Hi Hj]; simpl in *.
  rewrite <- (get_projection_length cos_a sin_a mesh view) in Hi, Hj.
  destruct (getitem_in_range _ _ Hi) as [pi Ei].
  destruct (getitem_in_range _ _ Hj) as [pj Ej].
  rewrite Ei, Ej. simpl. eauto.
Qed.

Lemma get_outline_edges_nth
    (cos_a sin_a : Q) (mesh : Trimesh) (view : string)
    (edges : list (point2 * point2)) :
  get_outline_edges cos_a sin_a mesh view = Ok edges ->
  length edges = length (edges_unique mesh) /\
  forall k i j, nth_error (edges_unique mesh) k = Some (i, j) ->
    exists p_i p_j,
      nth_error (get_projection cos_a sin_a mesh view) i = Some p_i /\
      nth_error (get_projection cos_a sin_a mesh view) j = Some p_j /\
      nth_error edges k = Some (p_i, p_j).
Proof.
  unfold get_outline_edges. intros H. split; [eapply mapM_length; eauto|].
  intros k i j Hk.
  destruct (mapM_nth _ _ _ H k (i, j) Hk) as (e & He & Hf). simpl in Hf.
  destruct (getitem _ i) as [p_i|] eqn:Ei; simpl in Hf; [|discriminate].
  destruct (getitem _ j) as [p_j|] eqn:Ej; simpl in Hf; [|discriminate].
  apply getitem_Ok in Ei, Ej. inversion Hf; subst. eauto.
Qed.

Lemma get_filled_projection_total
    (cos_a sin_a : Q) (mesh : Trimesh) (view : string) :
  mesh_wf mesh ->
  exists faces_2d,
    get_filled_projection cos_a sin_a mesh view
    = Ok (get_projection cos_a sin_a mesh view, faces_2d).
Proof.
  intros [Hfaces _]. unfold get_filled_projection.
  destruct (mapM_total (take_face (get_projection cos_a sin_a mesh view))
                       (faces mesh)) as [fs Hfs].
  - eapply Forall_impl; [|exact Hfaces]. intros f Hf.
    apply take_face_total. now rewrite get_projection_length.
  - rewrite Hfs. simpl. eauto.
Qed.

Lemma get_filled_projection_nth
    (cos_a sin_a : Q) (mesh : Trimesh) (view : string)
    (projection : list point2) (faces_2d : list (list point2)) :
  get_filled_projection cos_a sin_a mesh view = Ok (projection, faces_2d) ->
  projection = get_projection cos_a sin_a mesh view /\
  length faces_2d = length (faces mesh) /\
  forall k a b c, nth_error (faces mesh) k = Some (a, b, c) ->
    exists p_a p_b p_c,
      nth_error projection a = Some p_a /\
      nth_error projection b = Some p_b /\
      nth_error projection c = Some p_c /\
      nth_error faces_2d k = Some [p_a; p_b; p_c].
Proof.
  unfold get_filled_projection. intros H.
  destruct (mapM _ (faces mesh)) as [fs|] eqn:E; simpl in H; [|discriminate].
  inversion H; subst. split; [reflexivity|].
  split; [eapply mapM_length; eauto|].
  intros k a b c Hk.
  destruct (mapM_nth _ _ _ E k (a, b, c) Hk) as (pts & Hpts & Hf).
  apply take_face_Ok in Hf.
  destruct Hf as (pa & pb & pc & Ha & Hb & Hc & ->). eauto 8.
Qed.

(** ** The Vector-CAD encoder *)

Lemma mode_not_filled (mode : string) :
  mode <> "filled"%string -> (mode =? "filled")%string = false.
Proof. apply String.eqb_neq. Qed.

Lemma pair_eta (p : point2) : (fst p, snd p) = p.
Proof. now destruct p. Qed.

(** C6. On a well-formed mesh [to_dxf] writes a document whose entities
    carry the raw projected coordinates: in 'filled' mode the k-th entity
    is the closed polyline through the projections of the k-th face's
    three vertices, and in any other mode the k-th entity is the line
    between the projections of the k-th unique edge's endpoints.  No
    normalization is applied: the coordinates are those returned by
    [get_projection], exactly. *)
Theorem to_dxf_raw_coordinates
    (cos_a sin_a : Q) (mesh : Trimesh) (view mode : string) :
  mesh_wf mesh ->
  exists doc, to_dxf cos_a sin_a mesh view mode = Ok doc /\
    (mode = "filled"%string ->
     length doc = length (faces mesh) /\
     forall k a b c, nth_error (faces mesh) k = Some (a, b, c) ->
       exists p_a p_b p_c,
         nth_error (get_projection cos_a sin_a mesh view) a = Some p_a /\
         nth_error (get_projection cos_a sin_a mesh view) b = Some p_b /\
         nth_error (get_projection cos_a sin_a mesh view) c = Some p_c /\
         nth_error doc k = Some (DxfLwPolyline [p_a; p_b; p_c] true)) /\
    (mode <> "filled"%string ->
     length doc = length (edges_unique mesh) /\
     forall k i j, nth_error (edges_unique mesh) k = Some (i, j) ->
       exists p_i p_j,
         nth_error (get_projection cos_a sin_a mesh view) i = Some p_i /\
         nth_error (get_projection cos_a sin_a mesh view) j = Some p_j /\
         nth_error doc k = Some (DxfLine p_i p_j)).
Proof.
  intros Hwf. unfold to_dxf.
  destruct (mode =? "filled")%string eqn:Emode.
  - destruct (get_filled_projection_total cos_a sin_a mesh view Hwf)
      as [fs Hfs].
    rewrite Hfs. simpl. eexists; split; [reflexivity|].
    apply get_filled_projection_nth in Hfs. destruct Hfs as (_ & Hlen & Hnth).
    split.
    + intros _. split; [now rewrite length_map|].
      intros k a b c Hk.
      destruct (Hnth k a b c Hk) as (pa & pb & pc & Ha & Hb & Hc & Hf).
      exists pa, pb, pc. repeat (split; [assumption|]).
      rewrite (map_nth_error _ _ _ Hf). simpl. now rewrite !pair_eta.
    + intros Hm. apply String.eqb_eq in Emode. contradiction.
  - destruct (get_outline_edges_total cos_a sin_a mesh view Hwf)
      as [edges Hedges].
    rewrite Hedges. simpl. eexists; split; [reflexivity|].
    apply get_outline_edges_nth in Hedges. destruct Hedges as (Hlen & Hnth).
    split.
    + intros ->. discriminate.
    + intros _. split; [now rewrite length_map|].
      intros k i j Hk.
      destruct (Hnth k i j Hk) as (p_i & p_j & Hi & Hj & He).
      exists p_i, p_j. repeat (split; [assumption|]).
      rewrite (map_nth_error _ _ _ He). simpl. now rewrite !pair_eta.
Qed.

Lemma triangle_mesh_wf : mesh_wf triangle_mesh.
Proof.
  split; repeat constructor; simpl; lia.
Qed.

Lemma to_dxf_raw_coordinates_witness :
  exists doc, to_dxf cos_45 sin_45 triangle_mesh "front" "wireframe" = Ok doc /\
    ("wireframe"%string = "filled"%string ->
     length doc = length (faces triangle_mesh) /\
     forall k a b c, nth_error (faces triangle_mesh) k = Some (a, b, c) ->
       exists p_a p_b p_c,
         nth_error (get_projection cos_45 sin_45 triangle_mesh "front") a
         = Some p_a /\
         nth_error (get_projection cos_45 sin_45 triangle_mesh "front") b
         = Some p_b /\
         nth_error (get_projection cos_45 sin_45 triangle_mesh "front") c
         = Some p_c /\
         nth_error doc k = Some (DxfLwPolyline [p_a; p_b; p_c] true)) /\
    ("wireframe"%string <> "filled"%string ->
     length doc = length (edges_unique triangle_mesh) /\
     forall k i j, nth_error (edges_unique triangle_mesh) k = Some (i, j) ->
       exists p_i p_j,
         nth_error (get_projection cos_45 sin_45 triangle_mesh "front") i
         = Some p_i /\
         nth_error (get_projection cos_45 sin_45 triangle_mesh "front") j
         = Some p_j /\
         nth_error doc k = Some (DxfLine p_i p_j)).
Proof.
  apply (to_dxf_raw_coordinates cos_45 sin_45 triangle_mesh "front" "wireframe").
  split; repeat constructor; simpl; lia.
Defined.

(** ** Empty primitive sets *)

Lemma mesh_wf_no_vertices (mesh : Trimesh) :
  mesh_wf mesh -> vertices mesh = [] ->
  faces mesh = [] /\ edges_unique mesh = [].
Proof.
  intros [Hf He] Hv. rewrite Hv in Hf, He. simpl in *. split.
  - destruct (faces mesh) as [|[[a b] c] fs]; [reflexivity|].
    inversion Hf as [|? ? Ha _]; subst. simpl in Ha. lia.
  - destruct (edges_unique mesh) as [|[i j] es]; [reflexivity|].
    inversion He as [|? ? Hi _]; subst. destruct Hi as [Hi _]. simpl in Hi. lia.
Qed.

Lemma get_projection_nonempty
    (cos_a sin_a : Q) (mesh : Trimesh) (view : string) :
  vertices mesh <> [] -> get_projection cos_a sin_a mesh view <> [].
Proof.
  intros Hv Hp. apply Hv. apply length_zero_iff_nil.
  rewrite <- (get_projection_length cos_a sin_a mesh view), Hp. reflexivity.
Qed.

Lemma normalize_coords_total (points : list point2) (size margin : Z) :
  points <> [] ->
  exists min_vals scale,
    array_min points = Ok min_vals /\
    normalize_coords points size margin
    = Ok (map (affine min_vals scale margin) points, scale).
Proof.
  intros Hne.
  destruct (array_min_spec points Hne) as (mn & Hmn & _).
  destruct (array_max_spec points Hne) as (mx & Hmx & _).
  exists mn. eexists. split; [exact Hmn|].
  apply (normalize_coords_eq _ _ _ _ _ Hmn Hmx).
Qed.

(** C7 (as the code has it). The code has no InvalidMesh error.  A
    well-formed mesh without vertices has no faces and no edges.  When the
    requested primitive set is empty, extraction succeeds with an empty
    list and [to_dxf] writes a document without entities.  [to_svg] and
    [to_png] raise ValueError, before anything is written, when edges are
    requested and there is no unique edge, or when faces are requested and
    there is neither a vertex nor a face; they write a background-only
    output when faces are requested and there are vertices but no face. *)
Theorem empty_primitive_sets
    (cos_a sin_a : Q) (mesh : Trimesh) (view : string) (size : Z)
    (mode : string) :
  (mesh_wf mesh -> vertices mesh = [] ->
   faces mesh = [] /\ edges_unique mesh = []) /\
  (edges_unique mesh = [] ->
   get_outline_edges cos_a sin_a mesh view = Ok []) /\
  (faces mesh = [] ->
   get_filled_projection cos_a sin_a mesh view
   = Ok (get_projection cos_a sin_a mesh view, [])) /\
  (faces mesh = [] -> to_dxf cos_a sin_a mesh view "filled" = Ok []) /\
  (edges_unique mesh = [] -> mode <> "filled"%string ->
   to_dxf cos_a sin_a mesh view mode = Ok [] /\
   to_svg cos_a sin_a mesh view size mode = Raise ValueError /\
   to_png cos_a sin_a mesh view size mode = Raise ValueError) /\
  (vertices mesh = [] -> faces mesh = [] ->
   to_svg cos_a sin_a mesh view size "filled" = Raise ValueError /\
   to_png cos_a sin_a mesh view size "filled" = Raise ValueError) /\
  (vertices mesh <> [] -> faces mesh = [] ->
   to_svg cos_a sin_a mesh view size "filled"
   = Ok {| svg_size := (size, size);
           svg_elements := [SvgRect (0, 0)%Z (size, size) "white"] |} /\
   to_png cos_a sin_a mesh view size "filled"
   = Ok {| img_size := (size, size); img_background := Named "white";
           img_ops := [] |}).
Proof.
  split; [apply mesh_wf_no_vertices|].
  split; [intros He; unfold get_outline_edges; now rewrite He|].
  split; [intros Hf; unfold get_filled_projection; now rewrite Hf|].
  split.
  { intros Hf. unfold to_dxf, get_filled_projection. now rewrite Hf. }
  split.
  { intros He Hm. apply mode_not_filled in Hm.
    unfold to_dxf, to_svg, to_png, get_outline_edges.
    now rewrite Hm, He. }
  split.
  { intros Hv Hf.
    assert (Hp : get_projection cos_a sin_a mesh view = []).
    { apply length_zero_iff_nil. now rewrite get_projection_length, Hv. }
    unfold to_svg, to_png, get_filled_projection. simpl.
    now rewrite Hf, Hp. }
  intros Hv Hf.
  destruct (normalize_coords_total
              (get_projection cos_a sin_a mesh view) size default_margin)
    as (mn & scale & _ & Hn).
  { now apply get_projection_nonempty. }
  unfold to_svg, to_png, get_filled_projection. simpl.
  rewrite Hf. simpl. rewrite Hn. simpl. split; reflexivity.
Qed.

(** C7 (as stated) fails: the mesh without vertices, faces or edges is
    not rejected by extraction, and [to_dxf] writes an empty document for
    it in either mode; a mesh with vertices and no faces gets a
    background-only markup document in 'filled' mode. *)
Lemma empty_mesh_not_rejected :
  get_outline_edges cos_45 sin_45 empty_mesh "top" = Ok [] /\
  get_filled_projection cos_45 sin_45 empty_mesh "top" = Ok ([], []) /\
  to_dxf cos_45 sin_45 empty_mesh "top" "wireframe" = Ok [] /\
  to_dxf cos_45 sin_45 empty_mesh "top" "filled" = Ok [] /\
  to_svg cos_45 sin_45 points_only_mesh "top" 1000 "filled"
  = Ok {| svg_size := (1000, 1000)%Z;
          svg_elements := [SvgRect (0, 0)%Z (1000, 1000)%Z "white"] |}.
Proof. repeat split. Qed.

(** ** The edge loop of the markup and raster encoders *)

Lemma getitem_app_at {A : Type} (pre post : list A) (a : A) :
  getitem (pre ++ a :: post) (length pre) = Ok a.
Proof.
  apply getitem_Ok. rewrite nth_error_app2 by lia.
  now rewrite Nat.sub_diag.
Qed.

Lemma edge_loop_map {B : Type} (draw : point2 -> point2 -> B)
    (N : point2 -> point2) (edges : list (point2 * point2))
    (pre : list point2) :
  edge_loop draw edges (pre ++ map N (flatten_edges edges)) (length pre)
  = Ok (map (fun e => draw (N (fst e)) (N (snd e))) edges).
Proof.
  revert pre. induction edges as [|e edges IH]; intros pre; [reflexivity|].
  cbn [edge_loop flatten_edges flat_map app map].
  rewrite getitem_app_at. cbn [bind].
  replace (pre ++ N (fst e) :: N (snd e) :: map N (flat_map (fun edge => [fst edge; snd edge]) edges))
    with ((pre ++ [N (fst e)]) ++ N (snd e) :: map N (flatten_edges edges))
    by (now rewrite <- app_assoc).
  replace (length pre + 1)%nat with (length (pre ++ [N (fst e)]))
    by (rewrite length_app; reflexivity).
  rewrite getitem_app_at. cbn [bind].
  replace ((pre ++ [N (fst e)]) ++ N (snd e) :: map N (flatten_edges edges))
    with ((pre ++ [N (fst e); N (snd e)]) ++ map N (flatten_edges edges))
    by (now rewrite <- !app_assoc).
  replace (length (pre ++ [N (fst e)]) + 1)%nat
    with (length (pre ++ [N (fst e); N (snd e)]))
    by (rewrite !length_app; simpl; lia).
  replace (length pre + 2)%nat with (length (pre ++ [N (fst e); N (snd e)]))
    by (rewrite !length_app; simpl; lia).
  rewrite IH. reflexivity.
Qed.

Lemma flatten_edges_nth (edges : list (point2 * point2)) (k : nat)
    (p1 p2 : point2) :
  nth_error edges k = Some (p1, p2) ->
  nth_error (flatten_edges edges) (2 * k) = Some p1 /\
  nth_error (flatten_edges edges) (2 * k + 1) = Some p2.
Proof.
  revert k. induction edges as [|e edges IH]; intros k Hk.
  - destruct k; discriminate.
  - destruct k as [|k].
    + inversion Hk; subst. simpl. auto.
    + simpl in Hk. destruct (IH k Hk) as [H1 H2].
      replace (2 * S k)%nat with (S (S (2 * k))) by lia.
      replace (S (S (2 * k)) + 1)%nat with (S (S (2 * k + 1))) by lia.
      simpl. simpl in H1. auto.
Qed.

Lemma flatten_edges_nonempty (edges : list (point2 * point2)) :
  edges <> [] -> flatten_edges edges <> [].
Proof. destruct edges; [congruence|discriminate]. Qed.

Lemma flatten_edges_length (edges : list (point2 * point2)) :
  length (flatten_edges edges) = (2 * length edges)%nat.
Proof.
  induction edges as [|e edges IH]; [reflexivity|].
  change (flatten_edges (e :: edges))
    with (fst e :: snd e :: flatten_edges edges).
  cbn [length]. rewrite IH. lia.
Qed.

(** What the edge branch of [to_svg] and [to_png] computes on a mesh whose
    edges were extracted as [edges]. *)
Lemma edge_branch (cos_a sin_a : Q) (mesh : Trimesh) (view : string)
    (size : Z) (mode : string) (edges : list (point2 * point2)) :
  mode <> "filled"%string ->
  get_outline_edges cos_a sin_a mesh view = Ok edges ->
  edges <> [] ->
  exists min_vals scale,
    array_min (flatten_edges edges) = Ok min_vals /\
    normalize_coords (flatten_edges edges) size default_margin
    = Ok (map (affine min_vals scale default_margin) (flatten_edges edges),
          scale) /\
    to_svg cos_a sin_a mesh view size mode
    = Ok {| svg_size := (size, size);
            svg_elements :=
              SvgRect (0, 0)%Z (size, size) "white"
              :: map (fun e =>
                        SvgLine
                          (flip_y size (affine min_vals scale default_margin (fst e)))
                          (flip_y size (affine min_vals scale default_margin (snd e)))
                          "black" (3 # 2))
                     edges |} /\
    to_png cos_a sin_a mesh view size mode
    = Ok {| img_size := (size, size); img_background := Named "white";
            img_ops :=
              map (fun e =>
                     DrawLine
                       [flip_y size (affine min_vals scale default_margin (fst e));
                        flip_y size (affine min_vals scale default_margin (snd e))]
                       (Named "black") 2)
                  edges |}.
Proof.
  intros Hm Hedges Hne. apply mode_not_filled in Hm.
  pose proof (flatten_edges_nonempty edges Hne) as Hflat.
  destruct (normalize_coords_total (flatten_edges edges) size default_margin
              Hflat) as (mn & scale & Hmn & Hn).
  exists mn, scale. split; [exact Hmn|]. split; [exact Hn|].
  assert (Hv : vstack (flatten_edges edges) = Ok (flatten_edges edges)).
  { destruct (flatten_edges edges); [congruence|reflexivity]. }
  unfold to_svg, to_png. rewrite Hm, Hedges. cbn [bind].
  rewrite Hv. cbn [bind]. rewrite Hn. cbn [bind].
  rewrite (edge_loop_map _ (affine mn scale default_margin) edges []
           : edge_loop _ edges (map _ (flatten_edges edges)) 0 = _).
  rewrite (edge_loop_map _ (affine mn scale default_margin) edges []
           : edge_loop _ edges (map _ (flatten_edges edges)) 0 = _).
  split; reflexivity.
Qed.

(** C8. In any mode other than 'filled', on a well-formed mesh with at
    least one unique edge, [to_svg] and [to_png] normalize the flattened
    endpoint sequence as one point set (one bounding box, one scale), and
    draw one line per unique edge, in edge order: for the k-th unique edge
    (i, j), entries 2k and 2k+1 of the flattened sequence are the
    projections of vertices i and j, entries 2k and 2k+1 of the normalized
    array are their images under [p |-> (p - min) * scale + margin], and
    the k-th line joins those two images with [y' = size - y]. *)
Theorem wireframe_lines_positional
    (cos_a sin_a : Q) (mesh : Trimesh) (view : string) (size : Z)
    (mode : string) :
  mesh_wf mesh -> edges_unique mesh <> [] -> mode <> "filled"%string ->
  exists edges min_vals normalized scale svg png,
    get_outline_edges cos_a sin_a mesh view = Ok edges /\
    array_min (flatten_edges edges) = Ok min_vals /\
    normalize_coords (flatten_edges edges) size default_margin
    = Ok (normalized, scale) /\
    to_svg cos_a sin_a mesh view size mode = Ok svg /\
    to_png cos_a sin_a mesh view size mode = Ok png /\
    length (svg_elements svg) = S (length (edges_unique mesh)) /\
    length (img_ops png) = length (edges_unique mesh) /\
    forall k i j, nth_error (edges_unique mesh) k = Some (i, j) ->
      exists p_i p_j q_i q_j,
        nth_error (get_projection cos_a sin_a mesh view) i = Some p_i /\
        nth_error (get_projection cos_a sin_a mesh view) j = Some p_j /\
        nth_error (flatten_edges edges) (2 * k) = Some p_i /\
        nth_error (flatten_edges edges) (2 * k + 1) = Some p_j /\
        q_i = ((fst p_i - fst min_vals) * scale + inject_Z default_margin,
               (snd p_i - snd min_vals) * scale + inject_Z default_margin) /\
        q_j = ((fst p_j - fst min_vals) * scale + inject_Z default_margin,
               (snd p_j - snd min_vals) * scale + inject_Z default_margin) /\
        nth_error normalized (2 * k) = Some q_i /\
        nth_error normalized (2 * k + 1) = Some q_j /\
        nth_error (svg_elements svg) (S k)
        = Some (SvgLine (fst q_i, inject_Z size - snd q_i)
                        (fst q_j, inject_Z size - snd q_j)
                        "black" (3 # 2)) /\
        nth_error (img_ops png) k
        = Some (DrawLine [(fst q_i, inject_Z size - snd q_i);
                          (fst q_j, inject_Z size - snd q_j)]
                         (Named "black") 2).
Proof.
  intros Hwf Hne Hm.
  destruct (get_outline_edges_total cos_a sin_a mesh view Hwf) as [edges He].
  destruct (get_outline_edges_nth _ _ _ _ _ He) as [Hlen Hnth].
  assert (Hedges : edges <> []).
  { intros ->. apply Hne. apply length_zero_iff_nil. now rewrite <- Hlen. }
  destruct (edge_branch cos_a sin_a mesh view size mode edges Hm He Hedges)
    as (mn & scale & Hmn & Hn & Hsvg & Hpng).
  exists edges, mn. eexists _, scale, _, _.
  split; [exact He|]. split; [exact Hmn|]. split; [exact Hn|].
  split; [exact Hsvg|]. split; [exact Hpng|].
  cbn [svg_elements img_ops].
  split; [cbn [length]; now rewrite length_map, Hlen|].
  split; [now rewrite length_map, Hlen|].
  intros k i j Hk.
  destruct (Hnth k i j Hk) as (p_i & p_j & Hi & Hj & Hek).
  destruct (flatten_edges_nth edges k p_i p_j Hek) as [Hf1 Hf2].
  exists p_i, p_j. eexists _, _.
  split; [exact Hi|]. split; [exact Hj|].
  split; [exact Hf1|]. split; [exact Hf2|].
  split; [reflexivity|]. split; [reflexivity|].
  split; [exact (map_nth_error _ _ _ Hf1)|].
  split; [exact (map_nth_error _ _ _ Hf2)|].
  split.
  - cbn [nth_error]. exact (map_nth_error _ _ _ Hek).
  - exact (map_nth_error _ _ _ Hek).
Qed.

Lemma wireframe_lines_positional_witness :
  exists edges min_vals normalized scale svg png,
    get_outline_edges cos_45 sin_45 triangle_mesh "front" = Ok edges /\
    array_min (flatten_edges edges) = Ok min_vals /\
    normalize_coords (flatten_edges edges) 1000 default_margin
    = Ok (normalized, scale) /\
    to_svg cos_45 sin_45 triangle_mesh "front" 1000 "wireframe" = Ok svg /\
    to_png cos_45 sin_45 triangle_mesh "front" 1000 "wireframe" = Ok png /\
    length (svg_elements svg) = S (length (edges_unique triangle_mesh)) /\
    length (img_ops png) = length (edges_unique triangle_mesh) /\
    forall k i j, nth_error (edges_unique triangle_mesh) k = Some (i, j) ->
      exists p_i p_j q_i q_j,
        nth_error (get_projection cos_45 sin_45 triangle_mesh "front") i
        = Some p_i /\
        nth_error (get_projection cos_45 sin_45 triangle_mesh "front") j
        = Some p_j /\
        nth_error (flatten_edges edges) (2 * k) = Some p_i /\
        nth_error (flatten_edges edges) (2 * k + 1) = Some p_j /\
        q_i = ((fst p_i - fst min_vals) * scale + inject_Z default_margin,
               (snd p_i - snd min_vals) * scale + inject_Z default_margin) /\
        q_j = ((fst p_j - fst min_vals) * scale + inject_Z default_margin,
               (snd p_j - snd min_vals) * scale + inject_Z default_margin) /\
        nth_error normalized (2 * k) = Some q_i /\
        nth_error normalized (2 * k + 1) = Some q_j /\
        nth_error (svg_elements svg) (S k)
        = Some (SvgLine (fst q_i, inject_Z 1000 - snd q_i)
                        (fst q_j, inject_Z 1000 - snd q_j)
                        "black" (3 # 2)) /\
        nth_error (img_ops png) k
        = Some (DrawLine [(fst q_i, inject_Z 1000 - snd q_i);
                          (fst q_j, inject_Z 1000 - snd q_j)]
                         (Named "black") 2).
Proof.
  apply (wireframe_lines_positional
           cos_45 sin_45 triangle_mesh "front" 1000 "wireframe").
  - split; repeat constructor; simpl; lia.
  - discriminate.
  - discriminate.
Defined.

(** * Binary64 facts *)

Lemma SFeqb_refl_finite (x : spec_float) :
  SFeqb x x = negb (F64.sf_is_nan x).
Proof.
  destruct x as [s|s| |s m e]; try (destruct s; reflexivity); try reflexivity.
  unfold SFeqb, SFcompare.
  destruct s; rewrite Z.compare_refl, Pos.compare_cont_refl; reflexivity.
Qed.

Lemma is_nan_spec (f : float) : is_nan f = F64.sf_is_nan (Prim2SF f).
Proof.
  unfold is_nan. rewrite eqb_spec, SFeqb_refl_finite. apply negb_involutive.
Qed.

Lemma is_zero_spec (f : float) : is_zero f = F64.sf_is_zero (Prim2SF f).
Proof.
  unfold is_zero. rewrite eqb_spec.
  change (Prim2SF zero) with (S754_zero false).
  destruct (Prim2SF f) as [s|s| |s m e]; try (destruct s; reflexivity);
    reflexivity.
Qed.

Lemma is_finite_spec (f : float) : is_finite f = F64.sf_is_finite (Prim2SF f).
Proof.
  unfold is_finite, is_infinity. rewrite is_nan_spec, eqb_spec, abs_spec.
  change (Prim2SF infinity) with (S754_infinity false).
  destruct (Prim2SF f) as [s|s| |s m e]; try (destruct s; reflexivity);
    reflexivity.
Qed.

(** Rounding a non-negative mantissa never produces NaN. *)
Lemma shr_1_nonneg (mrs : shr_record) :
  (0 <= shr_m mrs)%Z -> (0 <= shr_m (shr_1 mrs))%Z.
Proof.
  destruct mrs as [m r s]. destruct m as [|[p|p|]|p]; simpl; lia.
Qed.

Lemma iter_pos_shr_1_nonneg (p : positive) (mrs : shr_record) :
  (0 <= shr_m mrs)%Z -> (0 <= shr_m (iter_pos shr_1 p mrs))%Z.
Proof.
  revert mrs. induction p as [p IH|p IH|]; intros mrs H; simpl.
  - apply IH, IH, shr_1_nonneg, H.
  - apply IH, IH, H.
  - apply shr_1_nonneg, H.
Qed.

Lemma shr_fexp_nonneg (m e : Z) (l : location) :
  (0 <= m)%Z -> (0 <= shr_m (fst (shr_fexp prec emax m e l)))%Z.
Proof.
  intros H. unfold shr_fexp, shr.
  assert (H0 : (0 <= shr_m (shr_record_of_loc m l))%Z).
  { destruct l as [|[| |]]; exact H. }
  destruct (_ - e)%Z; cbn [fst]; try exact H0.
  now apply iter_pos_shr_1_nonneg.
Qed.

Lemma round_nearest_even_nonneg (m : Z) (l : location) :
  (0 <= m)%Z -> (0 <= round_nearest_even m l)%Z.
Proof.
  intros H. destruct l as [|[| |]]; simpl; try lia.
  destruct (Z.even m); lia.
Qed.

Lemma binary_round_aux_not_nan (s : bool) (m e : Z) (l : location) :
  (0 <= m)%Z -> F64.sf_is_nan (binary_round_aux prec emax s m e l) = false.
Proof.
  intros H. unfold binary_round_aux.
  pose proof (shr_fexp_nonneg m e l H) as H1.
  destruct (shr_fexp prec emax m e l) as [mrs' e']. cbn [fst] in H1.
  pose proof (shr_fexp_nonneg _ e' loc_Exact
                (round_nearest_even_nonneg _ (loc_of_shr_record mrs') H1)) as H2.
  destruct (shr_fexp prec emax _ e' loc_Exact) as [mrs'' e''].
  cbn [fst] in H2.
  destruct (shr_m mrs'') as [|p|p]; [reflexivity| |lia].
  destruct (e'' <=? emax - prec)%Z; reflexivity.
Qed.

Lemma binary_normalize_not_nan (m e : Z) (szero : bool) :
  F64.sf_is_nan (binary_normalize prec emax m e szero) = false.
Proof.
  destruct m as [|p|p]; [reflexivity| |];
    unfold binary_normalize, binary_round;
    destruct (shl_align _ _ _) as [mz ez];
    apply binary_round_aux_not_nan; lia.
Qed.

(** The difference of two finite doubles is finite or infinite, never NaN. *)
Lemma SFsub_finite_not_nan (x y : spec_float) :
  F64.sf_is_finite x = true -> F64.sf_is_finite y = true ->
  F64.sf_is_nan (SF64sub x y) = false.
Proof.
  destruct x as [sx|sx| |sx mx ex]; try discriminate;
    destruct y as [sy|sy| |sy my ey]; try discriminate; intros _ _.
  - destruct sx, sy; reflexivity.
  - reflexivity.
  - reflexivity.
  - apply binary_normalize_not_nan.
Qed.

Lemma sub_finite_not_nan (x y : float) :
  is_finite x = true -> is_finite y = true -> is_nan (x - y) = false.
Proof.
  rewrite !is_finite_spec, is_nan_spec, sub_spec.
  apply SFsub_finite_not_nan.
Qed.

(** ** The binary64 normalizer *)

Lemma np_minimum_cases (a b : float) :
  F64.np_minimum a b = a \/ F64.np_minimum a b = b.
Proof. unfold F64.np_minimum. destruct (_ || _); auto. Qed.

Lemma np_maximum_cases (a b : float) :
  F64.np_maximum a b = a \/ F64.np_maximum a b = b.
Proof. unfold F64.np_maximum. destruct (_ || _); auto. Qed.

Lemma f64_column_min_In (x0 : float) (xs : list float) :
  In (F64.column_min x0 xs) (x0 :: xs).
Proof.
  unfold F64.column_min. revert x0.
  induction xs as [|x xs IH]; intros x0; simpl; [now left|].
  destruct (IH (F64.np_minimum x0 x)) as [H|H]; [|now right; right].
  rewrite <- H. destruct (np_minimum_cases x0 x) as [-> | ->]; auto.
Qed.

Lemma f64_column_max_In (x0 : float) (xs : list float) :
  In (F64.column_max x0 xs) (x0 :: xs).
Proof.
  unfold F64.column_max. revert x0.
  induction xs as [|x xs IH]; intros x0; simpl; [now left|].
  destruct (IH (F64.np_maximum x0 x)) as [H|H]; [|now right; right].
  rewrite <- H. destruct (np_maximum_cases x0 x) as [-> | ->]; auto.
Qed.

(** The bounding box is made of coordinates of the input. *)
Lemma f64_array_min_In (points : list F64.point2) :
  points <> [] ->
  exists min_vals,
    F64.array_min points = Ok min_vals /\
    In (fst min_vals) (map fst points) /\ In (snd min_vals) (map snd points).
Proof.
  destruct points as [|p0 rest]; [congruence|]. intros _.
  eexists. split; [reflexivity|]. cbn [fst snd map].
  split; apply f64_column_min_In.
Qed.

Lemma f64_array_max_In (points : list F64.point2) :
  points <> [] ->
  exists max_vals,
    F64.array_max points = Ok max_vals /\
    In (fst max_vals) (map fst points) /\ In (snd max_vals) (map snd points).
Proof.
  destruct points as [|p0 rest]; [congruence|]. intros _.
  eexists. split; [reflexivity|]. cbn [fst snd map].
  split; apply f64_column_max_In.
Qed.

Lemma finite_point_fst (points : list F64.point2) (x : float) :
  Forall F64.finite_point points -> In x (map fst points) ->
  is_finite x = true.
Proof.
  intros H Hx. apply in_map_iff in Hx. destruct Hx as (p & <- & Hp).
  rewrite Forall_forall in H. apply (H p Hp).
Qed.

Lemma finite_point_snd (points : list F64.point2) (y : float) :
  Forall F64.finite_point points -> In y (map snd points) ->
  is_finite y = true.
Proof.
  intros H Hy. apply in_map_iff in Hy. destruct Hy as (p & <- & Hp).
  rewrite Forall_forall in H. apply (H p Hp).
Qed.

(** After the zero-range rule a range is not zero, and is NaN only if it
    was NaN before. *)
Lemma f64_where_zero_one_not_zero (r : float) :
  is_zero (F64.where_zero_one r) = false.
Proof.
  unfold F64.where_zero_one. destruct (r =? 0)%float eqn:E; [reflexivity|].
  exact E.
Qed.

Lemma f64_where_zero_one_not_nan (r : float) :
  is_nan r = false -> is_nan (F64.where_zero_one r) = false.
Proof.
  intros H. unfold F64.where_zero_one. destruct (r =? 0)%float; [reflexivity|].
  exact H.
Qed.

Lemma f64_py_max_cases (a b : float) :
  F64.py_max a b = a \/ F64.py_max a b = b.
Proof. unfold F64.py_max. destruct (a <? b)%float; auto. Qed.

(** A zero numerator over a divisor that is neither zero nor NaN. *)
Lemma zero_div (d : float) :
  is_zero d = false -> is_nan d = false ->
  is_zero (F64.of_int 0 / d) = true.
Proof.
  rewrite !is_zero_spec, is_nan_spec, div_spec.
  change (Prim2SF (F64.of_int 0)) with (S754_zero false).
  destruct (Prim2SF d) as [s|s| |s m e]; try discriminate; reflexivity.
Qed.

(** A finite offset times a zero scale, plus the margin, is the margin;
    an offset that is not finite gives NaN. *)
Lemma collapse_finite (o scale : float) :
  is_zero scale = true -> is_finite o = true ->
  (o * scale + F64.of_int 50)%float = F64.of_int 50.
Proof.
  rewrite is_zero_spec, is_finite_spec. intros Hs Ho.
  apply Prim2SF_inj. rewrite add_spec, mul_spec.
  destruct (Prim2SF scale) as [s| | |]; try discriminate.
  destruct (Prim2SF o) as [so|so| |so mo eo]; try discriminate;
    reflexivity.
Qed.

Lemma collapse_not_finite (o scale : float) :
  is_zero scale = true -> is_finite o = false ->
  is_nan (o * scale + F64.of_int 50)%float = true.
Proof.
  rewrite is_zero_spec, is_finite_spec, is_nan_spec. intros Hs Ho.
  rewrite add_spec, mul_spec.
  destruct (Prim2SF scale) as [s| | |]; try discriminate.
  destruct (Prim2SF o) as [so|so| |so mo eo]; try discriminate;
    reflexivity.
Qed.

(** Binary64, [size = 100], [margin = 50], finite input coordinates: the
    scale is a zero, and each normalized coordinate is exactly 50 when its
    offset from the bounding-box minimum is finite and NaN when that
    subtraction overflows. *)
Lemma f64_normalize_coords_zero_span (points : list F64.point2) :
  points <> [] -> Forall F64.finite_point points ->
  exists normalized scale min_vals,
    F64.normalize_coords points 100 50 = Ok (normalized, scale) /\
    F64.array_min points = Ok min_vals /\
    is_zero scale = true /\
    Forall2
      (fun p q =>
         (is_finite (fst p - fst min_vals) = true -> fst q = F64.of_int 50) /\
         (is_finite (fst p - fst min_vals) = false -> is_nan (fst q) = true) /\
         (is_finite (snd p - snd min_vals) = true -> snd q = F64.of_int 50) /\
         (is_finite (snd p - snd min_vals) = false -> is_nan (snd q) = true))
      points normalized.
Proof.
  intros Hne Hfin.
  destruct (f64_array_min_In points Hne) as (mn & Hmn & Hmx & Hmy).
  destruct (f64_array_max_In points Hne) as (mx & HMx & HMX & HMY).
  pose proof (finite_point_fst _ _ Hfin Hmx) as Fmx.
  pose proof (finite_point_snd _ _ Hfin Hmy) as Fmy.
  pose proof (finite_point_fst _ _ Hfin HMX) as FMx.
  pose proof (finite_point_snd _ _ Hfin HMY) as FMy.
  unfold F64.normalize_coords. rewrite Hmn, HMx. cbn [bind fst snd].
  change (100 - 2 * 50)%Z with 0%Z.
  set (d := F64.py_max _ _).
  assert (Hd : is_zero d = false /\ is_nan d = false).
  { subst d.
    destruct (f64_py_max_cases
                (F64.where_zero_one (fst mx - fst mn))
                (F64.where_zero_one (snd mx - snd mn))) as [-> | ->];
      (split; [apply f64_where_zero_one_not_zero|
               apply f64_where_zero_one_not_nan, sub_finite_not_nan;
               assumption]). }
  destruct Hd as [Hz Hn].
  pose proof (zero_div d Hz Hn) as Hs.
  eexists _, _, mn. split; [reflexivity|]. split; [reflexivity|].
  split; [exact Hs|].
  clear - Hs. induction points as [|p points IH]; simpl; constructor.
  - cbn [fst snd]. repeat split; intros H.
    + now apply collapse_finite.
    + now apply collapse_not_finite.
    + now apply collapse_finite.
    + now apply collapse_not_finite.
  - exact IH.
Qed.



(** In binary64 the smallest canvas does not send every finite point to
    (50, 50): for (-1e308, 0), (1e308, 0) the offset of the second point
    overflows to infinity, and infinity times the zero scale is NaN. *)
Lemma min_canvas_overflow_is_nan :
  exists x scale,
    F64.finite_point (- 0x1.1ccf385ebc8ap+1023, 0)%float /\
    F64.finite_point (0x1.1ccf385ebc8ap+1023, 0)%float /\
    F64.normalize_coords
      [(- 0x1.1ccf385ebc8ap+1023, 0); (0x1.1ccf385ebc8ap+1023, 0)]%float
      100 50
    = Ok ([(50, 50); (x, 50)]%float, scale) /\
    is_zero scale = true /\
    is_nan x = true /\
    (x =? 50)%float = false.
Proof.
  eexists _, _. split; [split; vm_compute; reflexivity|].
  split; [split; vm_compute; reflexivity|].
  split; [vm_compute; reflexivity|].
  repeat split; vm_compute; reflexivity.
Qed.

(** ** The minimum corner in binary64 *)

(** A finite double minus itself is +0; times a finite scale, plus the
    margin, it is the margin. *)
Lemma anchor_coordinate (x scale : float) :
  is_finite x = true -> is_finite scale = true ->
  ((x - x) * scale + F64.of_int 50)%float = F64.of_int 50.
Proof.
  rewrite !is_finite_spec. intros Hx Hs.
  apply Prim2SF_inj. rewrite add_spec, mul_spec, sub_spec.
  assert (H0 : SF64sub (Prim2SF x) (Prim2SF x) = S754_zero false).
  { destruct (Prim2SF x) as [sx|sx| |sx mx ex]; try discriminate.
    - destruct sx; reflexivity.
    - unfold SF64sub, SFsub. rewrite Z.sub_diag. reflexivity. }
  rewrite H0.
  destruct (Prim2SF scale) as [s|s| |s m e]; try discriminate; reflexivity.
Qed.

Lemma In_map_nth_error {A B : Type} (f : A -> B) (l : list A) (b : B) :
  In b (map f l) -> exists k a, nth_error l k = Some a /\ f a = b.
Proof.
  intros H. apply in_map_iff in H. destruct H as (a & <- & Ha).
  apply In_nth_error in Ha. destruct Ha as [k Hk]. eauto.
Qed.

(** Binary64, default margin: on a non-empty set of finite points whose
    scale comes out finite, the point carrying the least x is normalized
    to x = 50 exactly and the point carrying the least y to y = 50
    exactly. *)
Theorem normalize_coords_anchors_min_corner
    (points : list F64.point2) (size : Z) :
  points <> [] -> Forall F64.finite_point points ->
  exists normalized scale min_vals,
    F64.normalize_coords points size 50 = Ok (normalized, scale) /\
    F64.array_min points = Ok min_vals /\
    length normalized = length points /\
    (is_finite scale = true ->
     (exists k p q,
        nth_error points k = Some p /\ fst p = fst min_vals /\
        nth_error normalized k = Some q /\ fst q = F64.of_int 50) /\
     (exists k p q,
        nth_error points k = Some p /\ snd p = snd min_vals /\
        nth_error normalized k = Some q /\ snd q = F64.of_int 50)).
Proof.
  intros Hne Hfin.
  destruct (f64_array_min_In points Hne) as (mn & Hmn & Hmx & Hmy).
  destruct (f64_array_max_In points Hne) as (mx & HMx & _).
  pose proof (finite_point_fst _ _ Hfin Hmx) as Fmx.
  pose proof (finite_point_snd _ _ Hfin Hmy) as Fmy.
  unfold F64.normalize_coords. rewrite Hmn, HMx. cbn [bind fst snd].
  eexists _, _, mn. split; [reflexivity|]. split; [reflexivity|].
  split; [apply length_map|].
  intros Hs. split.
  - destruct (In_map_nth_error _ _ _ Hmx) as (k & p & Hk & Hp).
    exists k, p. eexists. split; [exact Hk|]. split; [exact Hp|].
    split; [exact (map_nth_error _ _ _ Hk)|].
    cbn [fst]. rewrite Hp. now apply anchor_coordinate.
  - destruct (In_map_nth_error _ _ _ Hmy) as (k & p & Hk & Hp).
    exists k, p. eexists. split; [exact Hk|]. split; [exact Hp|].
    split; [exact (map_nth_error _ _ _ Hk)|].
    cbn [snd]. rewrite Hp. now apply anchor_coordinate.
Qed.

Lemma normalize_coords_anchors_min_corner_witness :
  exists normalized scale,
    F64.normalize_coords [(3, 8); (10, 5)]%float 1000 50
    = Ok (normalized, scale) /\
    (exists k q, nth_error normalized k = Some q /\ fst q = F64.of_int 50) /\
    (exists k q, nth_error normalized k = Some q /\ snd q = F64.of_int 50).
Proof.
  destruct (normalize_coords_anchors_min_corner [(3, 8); (10, 5)]%float 1000)
    as (normalized & scale & mn & Hn & _ & _ & H).
  - discriminate.
  - repeat constructor; vm_compute; reflexivity.
  - exists normalized, scale. split; [exact Hn|].
    assert (Hs : is_finite scale = true).
    { vm_compute in Hn. injection Hn as _ <-. vm_compute. reflexivity. }
    destruct (H Hs) as [(k & p & q & _ & _ & Hq & Hx)
                        (k' & p' & q' & _ & _ & Hq' & Hy)].
    split; eauto.
Defined.

(** ** Outline and wireframe: one line per unique edge *)

(** An encoder that returned in an edge mode had extracted the edges, and
    there was at least one. *)
Lemma to_svg_edges_inv (cos_a sin_a : Q) (mesh : Trimesh) (view : string)
    (size : Z) (mode : string) (svg : svg_doc) :
  mode <> "filled"%string ->
  to_svg cos_a sin_a mesh view size mode = Ok svg ->
  exists edges,
    get_outline_edges cos_a sin_a mesh view = Ok edges /\ edges <> [].
Proof.
  intros Hm H. apply mode_not_filled in Hm.
  unfold to_svg in H. rewrite Hm in H.
  destruct (get_outline_edges cos_a sin_a mesh view) as [edges|e] eqn:He;
    cbn [bind] in H; [|discriminate].
  exists edges. split; [reflexivity|]. intros ->. discriminate.
Qed.

Lemma to_png_edges_inv (cos_a sin_a : Q) (mesh : Trimesh) (view : string)
    (size : Z) (mode : string) (png : png_image) :
  mode <> "filled"%string ->
  to_png cos_a sin_a mesh view size mode = Ok png ->
  exists edges,
    get_outline_edges cos_a sin_a mesh view = Ok edges /\ edges <> [].
Proof.
  intros Hm H. apply mode_not_filled in Hm.
  unfold to_png in H. rewrite Hm in H.
  destruct (get_outline_edges cos_a sin_a mesh view) as [edges|e] eqn:He;
    cbn [bind] in H; [|discriminate].
  exists edges. split; [reflexivity|]. intros ->. discriminate.
Qed.

Lemma forallb_map_const {A B : Type} (f : A -> B) (p : B -> bool)
    (l : list A) :
  (forall a, p (f a) = true) -> forallb p (map f l) = true.
Proof.
  intros H. induction l as [|a l IH]; simpl; [reflexivity|].
  now rewrite H, IH.
Qed.

(** C9. For every mesh, view and canvas size, each encoder produces for
    mode 'outline' exactly what it produces for mode 'wireframe', and what
    it produces is the unique edges of the mesh and nothing else.  Whenever
    [to_dxf] returns, its document has one entity per unique edge and the
    k-th entity is the line between the projections of the k-th edge's
    endpoints.  Whenever [to_svg] returns, its document is the background
    rectangle followed by one line per unique edge, the k-th line joining
    the normalized, flipped projections of the k-th edge's endpoints;
    whenever [to_png] returns, its drawing operations are those lines.
    The encoders do emit them: on a well-formed mesh [to_dxf] returns, and
    with at least one unique edge so do [to_svg] and [to_png]. *)
Theorem outline_same_as_wireframe
    (cos_a sin_a : Q) (mesh : Trimesh) (view : string) (size : Z) :
  to_dxf cos_a sin_a mesh view "outline"
  = to_dxf cos_a sin_a mesh view "wireframe" /\
  to_svg cos_a sin_a mesh view size "outline"
  = to_svg cos_a sin_a mesh view size "wireframe" /\
  to_png cos_a sin_a mesh view size "outline"
  = to_png cos_a sin_a mesh view size "wireframe" /\
  (forall doc, to_dxf cos_a sin_a mesh view "wireframe" = Ok doc ->
     forallb is_dxf_line doc = true /\
     length doc = length (edges_unique mesh) /\
     forall k i j, nth_error (edges_unique mesh) k = Some (i, j) ->
       exists p_i p_j,
         nth_error (get_projection cos_a sin_a mesh view) i = Some p_i /\
         nth_error (get_projection cos_a sin_a mesh view) j = Some p_j /\
         nth_error doc k = Some (DxfLine p_i p_j)) /\
  (forall doc, to_svg cos_a sin_a mesh view size "wireframe" = Ok doc ->
     exists lines min_vals scale,
       svg_elements doc = SvgRect (0, 0)%Z (size, size) "white" :: lines /\
       forallb is_svg_line lines = true /\
       length lines = length (edges_unique mesh) /\
       forall k i j, nth_error (edges_unique mesh) k = Some (i, j) ->
         exists p_i p_j,
           nth_error (get_projection cos_a sin_a mesh view) i = Some p_i /\
           nth_error (get_projection cos_a sin_a mesh view) j = Some p_j /\
           nth_error lines k
           = Some (SvgLine
                     (flip_y size (affine min_vals scale default_margin p_i))
                     (flip_y size (affine min_vals scale default_margin p_j))
                     "black" (3 # 2))) /\
  (forall img, to_png cos_a sin_a mesh view size "wireframe" = Ok img ->
     exists min_vals scale,
       forallb is_draw_line (img_ops img) = true /\
       length (img_ops img) = length (edges_unique mesh) /\
       forall k i j, nth_error (edges_unique mesh) k = Some (i, j) ->
         exists p_i p_j,
           nth_error (get_projection cos_a sin_a mesh view) i = Some p_i /\
           nth_error (get_projection cos_a sin_a mesh view) j = Some p_j /\
           nth_error (img_ops img) k
           = Some (DrawLine
                     [flip_y size (affine min_vals scale default_margin p_i);
                      flip_y size (affine min_vals scale default_margin p_j)]
                     (Named "black") 2)) /\
  (mesh_wf mesh ->
   exists doc, to_dxf cos_a sin_a mesh view "wireframe" = Ok doc) /\
  (mesh_wf mesh -> edges_unique mesh <> [] ->
   exists svg img,
     to_svg cos_a sin_a mesh view size "wireframe" = Ok svg /\
     to_png cos_a sin_a mesh view size "wireframe" = Ok img).
Proof.
  assert (Hm : "wireframe"%string <> "filled"%string) by discriminate.
  split; [reflexivity|]. split; [reflexivity|]. split; [reflexivity|].
  split; [|split; [|split; [|split]]].
  - intros doc H. unfold to_dxf in H. cbn [String.eqb Ascii.eqb Bool.eqb] in H.
    destruct (get_outline_edges cos_a sin_a mesh view) as [edges|e] eqn:He;
      cbn [bind] in H; [|discriminate].
    injection H as <-.
    destruct (get_outline_edges_nth _ _ _ _ _ He) as [Hlen Hnth].
    split; [now apply forallb_map_const|].
    split; [now rewrite length_map|].
    intros k i j Hk.
    destruct (Hnth k i j Hk) as (p_i & p_j & Hi & Hj & Hek).
    exists p_i, p_j. split; [exact Hi|]. split; [exact Hj|].
    rewrite (map_nth_error _ _ _ Hek). cbn [fst snd].
    now rewrite !pair_eta.
  - intros doc H.
    destruct (to_svg_edges_inv _ _ _ _ _ _ _ Hm H) as (edges & He & Hne).
    destruct (get_outline_edges_nth _ _ _ _ _ He) as [Hlen Hnth].
    destruct (edge_branch cos_a sin_a mesh view size "wireframe" edges Hm He
                          Hne) as (mn & scale & _ & _ & Hsvg & _).
    rewrite Hsvg in H. injection H as <-. cbn [svg_elements].
    eexists _, mn, scale. split; [reflexivity|].
    split; [now apply forallb_map_const|].
    split; [now rewrite length_map|].
    intros k i j Hk.
    destruct (Hnth k i j Hk) as (p_i & p_j & Hi & Hj & Hek).
    exists p_i, p_j. split; [exact Hi|]. split; [exact Hj|].
    exact (map_nth_error _ _ _ Hek).
  - intros img H.
    destruct (to_png_edges_inv _ _ _ _ _ _ _ Hm H) as (edges & He & Hne).
    destruct (get_outline_edges_nth _ _ _ _ _ He) as [Hlen Hnth].
    destruct (edge_branch cos_a sin_a mesh view size "wireframe" edges Hm He
                          Hne) as (mn & scale & _ & _ & _ & Hpng).
    rewrite Hpng in H. injection H as <-. cbn [img_ops].
    exists mn, scale.
    split; [now apply forallb_map_const|].
    split; [now rewrite length_map|].
    intros k i j Hk.
    destruct (Hnth k i j Hk) as (p_i & p_j & Hi & Hj & Hek).
    exists p_i, p_j. split; [exact Hi|]. split; [exact Hj|].
    exact (map_nth_error _ _ _ Hek).
  - intros Hwf.
    destruct (get_outline_edges_total cos_a sin_a mesh view Hwf) as [edges He].
    unfold to_dxf. cbn [String.eqb Ascii.eqb Bool.eqb].
    rewrite He. cbn [bind]. eauto.
  - intros Hwf Hedges.
    destruct (get_outline_edges_total cos_a sin_a mesh view Hwf) as [edges He].
    destruct (get_outline_edges_nth _ _ _ _ _ He) as [Hlen _].
    assert (Hne : edges <> []).
    { intros ->. apply Hedges. apply length_zero_iff_nil. now rewrite <- Hlen. }
    destruct (edge_branch cos_a sin_a mesh view size "wireframe" edges Hm He
                          Hne) as (mn & scale & _ & _ & Hsvg & Hpng).
    eauto.
Qed.

(** ** The face loop of the markup and raster encoders *)

Lemma mapM_bind_pure {A B C : Type} (f : A -> result B) (g : B -> C)
    (l : list A) :
  mapM (fun a => b <- f a ;; Ok (g b)) l
  = (bs <- mapM f l ;; Ok (map g bs)).
Proof.
  induction l as [|a l IH]; simpl; [reflexivity|].
  destruct (f a) as [b|e]; simpl; [|reflexivity].
  rewrite IH. destruct (mapM f l); reflexivity.
Qed.

(** What the 'filled' branch of [to_svg] and [to_png] computes on a
    well-formed mesh that has vertices. *)
Lemma filled_branch (cos_a sin_a : Q) (mesh : Trimesh) (view : string)
    (size : Z) :
  mesh_wf mesh -> vertices mesh <> [] ->
  exists min_vals scale faces_pts,
    normalize_coords (get_projection cos_a sin_a mesh view) size default_margin
    = Ok (map (affine min_vals scale default_margin)
              (get_projection cos_a sin_a mesh view), scale) /\
    mapM (take_face (map (affine min_vals scale default_margin)
                         (get_projection cos_a sin_a mesh view)))
         (faces mesh) = Ok faces_pts /\
    to_svg cos_a sin_a mesh view size "filled"
    = Ok {| svg_size := (size, size);
            svg_elements :=
              SvgRect (0, 0)%Z (size, size) "white"
              :: map (fun pts => SvgPolygon (map (flip_y size) pts)
                                            "lightgray" "black" (1 # 2))
                     faces_pts |} /\
    to_png cos_a sin_a mesh view size "filled"
    = Ok {| img_size := (size, size); img_background := Named "white";
            img_ops :=
              map (fun pts => DrawPolygon (map (flip_y size) pts)
                                          (RGB 200 200 200) (RGB 0 0 0))
                  faces_pts |}.
Proof.
  intros Hwf Hv.
  destruct (get_filled_projection_total cos_a sin_a mesh view Hwf) as [fs Hfs].
  destruct (normalize_coords_total
              (get_projection cos_a sin_a mesh view) size default_margin)
    as (mn & scale & _ & Hn).
  { now apply get_projection_nonempty. }
  destruct (mapM_total
              (take_face (map (affine mn scale default_margin)
                              (get_projection cos_a sin_a mesh view)))
              (faces mesh)) as [pts Hpts].
  { destruct Hwf as [Hfaces _].
    eapply Forall_impl; [|exact Hfaces]. intros f Hf.
    apply take_face_total. now rewrite length_map, get_projection_length. }
  exists mn, scale, pts. split; [exact Hn|]. split; [exact Hpts|].
  unfold to_svg, to_png. cbn [String.eqb Ascii.eqb Bool.eqb].
  rewrite Hfs. cbn [bind]. rewrite Hn. cbn [bind].
  rewrite !mapM_bind_pure, Hpts. split; reflexivity.
Qed.

(** ** The smallest accepted canvas *)

Lemma normalize_coords_zero_span
    (points normalized : list point2) (size margin : Z) (scale : Q) :
  normalize_coords points size margin = Ok (normalized, scale) ->
  size = (2 * margin)%Z ->
  scale == 0.
Proof.
  intros H ->.
  assert (Hne : points <> []) by (intros ->; discriminate).
  destruct (array_min_spec points Hne) as (mn & Hmn & _).
  destruct (array_max_spec points Hne) as (mx & Hmx & _).
  rewrite (normalize_coords_eq _ _ _ _ _ Hmn Hmx) in H.
  injection H as _ <-.
  rewrite Z.sub_diag. unfold Qdiv. apply Qmult_0_l.
Qed.

Lemma affine_zero_scale (min_vals p : point2) (scale : Q) (margin : Z) :
  scale == 0 ->
  pt_eq (affine min_vals scale margin p) (inject_Z margin, inject_Z margin).
Proof.
  intros Hs. unfold pt_eq, affine; cbn [fst snd]. rewrite Hs. split; ring.
Qed.

Lemma flip_y_center (q : point2) :
  pt_eq q (50, 50) -> pt_eq (flip_y 100 q) (50, 50).
Proof.
  intros [Hx Hy]. unfold pt_eq, flip_y; cbn [fst snd] in *.
  split; [exact Hx|]. rewrite Hy. reflexivity.
Qed.

(** C10 (as the code has it). With [size = 100] and the default margin
    50 the span [size - 2*margin] is 0.  In binary64, on a non-empty set
    of finite points, [normalize_coords] returns a zero scale and sends
    each coordinate to exactly 50 when its offset from the bounding-box
    minimum is finite, and to NaN when that subtraction overflows.  On a
    well-formed mesh (with a vertex in 'filled' mode, with a unique edge
    otherwise) whose projected coordinates have magnitude at most
    [2^1000], so that every offset is finite, [to_svg] and [to_png] raise
    no error, draw one primitive per face or edge after the background
    rectangle, and every vertex of every primitive is the point (50, 50).
    The exact model needs no bound on the coordinates; the bound is what
    keeps the binary64 offsets finite. *)
Theorem min_canvas_collapses
    (cos_a sin_a : Q) (points : list F64.point2) (mesh : Trimesh)
    (view mode : string) :
  points <> [] -> Forall F64.finite_point points ->
  mesh_wf mesh ->
  (mode = "filled"%string -> vertices mesh <> []) ->
  (mode <> "filled"%string -> edges_unique mesh <> []) ->
  Forall bounded_point (get_projection cos_a sin_a mesh view) ->
  (exists normalized scale min_vals,
     F64.normalize_coords points 100 default_margin = Ok (normalized, scale) /\
     F64.array_min points = Ok min_vals /\
     is_zero scale = true /\
     Forall2
       (fun p q =>
          (is_finite (fst p - fst min_vals) = true ->
           fst q = F64.of_int default_margin) /\
          (is_finite (fst p - fst min_vals) = false -> is_nan (fst q) = true) /\
          (is_finite (snd p - snd min_vals) = true ->
           snd q = F64.of_int default_margin) /\
          (is_finite (snd p - snd min_vals) = false -> is_nan (snd q) = true))
       points normalized) /\
  (exists svg png primitives,
     to_svg cos_a sin_a mesh view 100 mode = Ok svg /\
     to_png cos_a sin_a mesh view 100 mode = Ok png /\
     svg_elements svg = SvgRect (0, 0)%Z (100, 100)%Z "white" :: primitives /\
     length primitives
     = (if (mode =? "filled")%string then length (faces mesh)
        else length (edges_unique mesh)) /\
     length (img_ops png)
     = (if (mode =? "filled")%string then length (faces mesh)
        else length (edges_unique mesh)) /\
     Forall (svg_drawn_at (50, 50)) primitives /\
     Forall (png_drawn_at (50, 50)) (img_ops png)).
Proof.
  intros Hne Hfin Hwf Hfilled Hedges _. split.
  - exact (f64_normalize_coords_zero_span points Hne Hfin).
  - destruct (mode =? "filled")%string eqn:Em.
    + apply String.eqb_eq in Em. subst mode.
      specialize (Hfilled eq_refl).
      destruct (filled_branch cos_a sin_a mesh view 100 Hwf Hfilled)
        as (mn & scale & pts & Hn & Hpts & Hsvg & Hpng).
      pose proof (normalize_coords_zero_span _ _ _ _ _ Hn eq_refl) as Hs.
      assert (Hall : Forall (Forall (fun q => pt_eq q (50, 50))) pts).
      { eapply mapM_Forall; [exact Hpts|]. intros f ps _ Hf.
        apply take_face_In in Hf. eapply Forall_impl; [|exact Hf].
        intros q Hq. apply in_map_iff in Hq.
        destruct Hq as (p & <- & _). now apply affine_zero_scale. }
      eexists _, _, _. split; [exact Hsvg|]. split; [exact Hpng|].
      cbn [svg_elements img_ops]. split; [reflexivity|].
      rewrite !length_map, (mapM_length _ _ _ Hpts).
      split; [reflexivity|]. split; [reflexivity|]. split.
      * apply Forall_map. eapply Forall_impl; [|exact Hall].
        intros ps Hps. cbn [svg_drawn_at].
        apply Forall_map. eapply Forall_impl; [|exact Hps].
        intros q. apply flip_y_center.
      * apply Forall_map. eapply Forall_impl; [|exact Hall].
        intros ps Hps. cbn [png_drawn_at].
        apply Forall_map. eapply Forall_impl; [|exact Hps].
        intros q. apply flip_y_center.
    + apply String.eqb_neq in Em. specialize (Hedges Em).
      destruct (get_outline_edges_total cos_a sin_a mesh view Hwf)
        as [edges He].
      destruct (get_outline_edges_nth _ _ _ _ _ He) as [Hlen _].
      assert (Hnonempty : edges <> []).
      { intros ->. apply Hedges. apply length_zero_iff_nil.
        now rewrite <- Hlen. }
      destruct (edge_branch cos_a sin_a mesh view 100 mode edges Em He
                            Hnonempty)
        as (mn & scale & _ & Hn & Hsvg & Hpng).
      pose proof (normalize_coords_zero_span _ _ _ _ _ Hn eq_refl) as Hs.
      assert (Haff : forall p, pt_eq (affine mn scale default_margin p) (50, 50)).
      { intros p. now apply affine_zero_scale. }
      eexists _, _, _. split; [exact Hsvg|]. split; [exact Hpng|].
      cbn [svg_elements img_ops]. split; [reflexivity|].
      rewrite !length_map, Hlen.
      split; [reflexivity|]. split; [reflexivity|]. split.
      * apply Forall_map. apply Forall_forall. intros e _.
        cbn [svg_drawn_at]. split; apply flip_y_center, Haff.
      * apply Forall_map. apply Forall_forall. intros e _.
        cbn [png_drawn_at].
        repeat constructor; apply flip_y_center, Haff.
Qed.

Lemma min_canvas_collapses_witness :
  (exists normalized scale min_vals,
     F64.normalize_coords [(0, 0); (4, 2)]%float 100 default_margin
     = Ok (normalized, scale) /\
     F64.array_min [(0, 0); (4, 2)]%float = Ok min_vals /\
     is_zero scale = true /\
     Forall2
       (fun p q =>
          (is_finite (fst p - fst min_vals) = true ->
           fst q = F64.of_int default_margin) /\
          (is_finite (fst p - fst min_vals) = false -> is_nan (fst q) = true) /\
          (is_finite (snd p - snd min_vals) = true ->
           snd q = F64.of_int default_margin) /\
          (is_finite (snd p - snd min_vals) = false -> is_nan (snd q) = true))
       [(0, 0); (4, 2)]%float normalized) /\
  (exists svg png primitives,
     to_svg cos_45 sin_45 triangle_mesh "isometric" 100 "filled" = Ok svg /\
     to_png cos_45 sin_45 triangle_mesh "isometric" 100 "filled" = Ok png /\
     svg_elements svg = SvgRect (0, 0)%Z (100, 100)%Z "white" :: primitives /\
     length primitives
     = (if ("filled" =? "filled")%string then length (faces triangle_mesh)
        else length (edges_unique triangle_mesh)) /\
     length (img_ops png)
     = (if ("filled" =? "filled")%string then length (faces triangle_mesh)
        else length (edges_unique triangle_mesh)) /\
     Forall (svg_drawn_at (50, 50)) primitives /\
     Forall (png_drawn_at (50, 50)) (img_ops png)).
Proof.
  apply (min_canvas_collapses cos_45 sin_45 [(0, 0); (4, 2)]%float
                              triangle_mesh "isometric" "filled").
  - discriminate.
  - repeat constructor; vm_compute; reflexivity.
  - split; repeat constructor; simpl; lia.
  - discriminate.
  - intros H. exfalso. apply H. reflexivity.
  - repeat constructor; vm_compute; discriminate.
Defined.

(** ** Worked scenarios *)

(** The projected unit square on a canvas of 1000: a square of side 900
    with the margin of 50 on every side. *)
Example unit_square_on_1000 :
  exists normalized scale,
    normalize_coords [(0, 0); (1, 0); (1, 1); (0, 1)] 1000 default_margin
    = Ok (normalized, scale) /\
    scale == 900 /\
    Forall2 pt_eq normalized [(50, 50); (950, 50); (950, 950); (50, 950)].
Proof.
  eexists _, _. split; [reflexivity|].
  split; [vm_compute; reflexivity|].
  repeat constructor; vm_compute; reflexivity.
Qed.

(** A flat square seen from the front: the second axis has zero range,
    which the zero-range rule replaces by 1. *)
Example flat_square_front_view :
  exists normalized scale,
    normalize_coords
      (get_projection cos_45 sin_45
         {| vertices := [(0, 0, 0); (1, 0, 0); (1, 1, 0); (0, 1, 0)];
            faces := [(0, 1, 2)%nat; (0, 2, 3)%nat];
            edges_unique := [] |} "front")
      1000 default_margin
    = Ok (normalized, scale) /\
    scale == 900 /\
    Forall2 pt_eq normalized [(50, 50); (950, 50); (950, 50); (50, 50)].
Proof.
  eexists _, _. split; [reflexivity|].
  split; [vm_compute; reflexivity|].
  repeat constructor; vm_compute; reflexivity.
Qed.

(** The three lines [to_dxf] writes for the triangle, seen from the top. *)
Example triangle_dxf_top :
  to_dxf cos_45 sin_45 triangle_mesh "top" "outline"
  = Ok [DxfLine (0, 0) (4, 0); DxfLine (4, 0) (0, 2); DxfLine (0, 0) (0, 2)].
Proof. reflexivity. Qed.

(** * Further properties of projection and extraction *)

(** The 'isometric' view keeps the third coordinate and replaces the first
    by [x * cos_a - y * sin_a]: vertex (x, y, z) is drawn at
    (x cos_a - y sin_a, z). *)
Theorem get_projection_isometric
    (cos_a sin_a : Q) (mesh : Trimesh) (i : nat) (x y z : Q) :
  nth_error (vertices mesh) i = Some (x, y, z) ->
  exists p,
    nth_error (get_projection cos_a sin_a mesh "isometric") i = Some p /\
    pt_eq p (x * cos_a - y * sin_a, z).
Proof.
  intros Hi. unfold get_projection, take_columns, matmul.
  cbn [String.eqb Ascii.eqb Bool.eqb]. rewrite map_map.
  eexists. split; [exact (map_nth_error _ _ _ Hi)|].
  unfold pt_eq, row_matmul, transpose, rot_z, axis; cbn [fst snd].
  split; ring.
Qed.

Lemma get_projection_isometric_witness :
  exists p,
    nth_error (get_projection cos_45 sin_45 triangle_mesh "isometric") 1
    = Some p /\
    pt_eq p (4 * cos_45 - 0 * sin_45, 1).
Proof.
  apply (get_projection_isometric cos_45 sin_45 triangle_mesh 1 4 0 1).
  reflexivity.
Defined.

(** Faces are projected in face order, one triangle per face, nothing
    dropped: on a well-formed mesh [get_filled_projection] returns the
    projection itself and, for the k-th face (a, b, c), the three
    projected points of vertices a, b, c in that order. *)
Theorem get_filled_projection_face_order
    (cos_a sin_a : Q) (mesh : Trimesh) (view : string) :
  mesh_wf mesh ->
  exists faces_2d,
    get_filled_projection cos_a sin_a mesh view
    = Ok (get_projection cos_a sin_a mesh view, faces_2d) /\
    length faces_2d = length (faces mesh) /\
    forall k a b c, nth_error (faces mesh) k = Some (a, b, c) ->
      exists p_a p_b p_c,
        nth_error (get_projection cos_a sin_a mesh view) a = Some p_a /\
        nth_error (get_projection cos_a sin_a mesh view) b = Some p_b /\
        nth_error (get_projection cos_a sin_a mesh view) c = Some p_c /\
        nth_error faces_2d k = Some [p_a; p_b; p_c].
Proof.
  intros Hwf.
  destruct (get_filled_projection_total cos_a sin_a mesh view Hwf) as [fs Hfs].
  exists fs. split; [exact Hfs|].
  destruct (get_filled_projection_nth _ _ _ _ _ _ Hfs) as (_ & Hlen & Hnth).
  split; assumption.
Qed.

Lemma get_filled_projection_face_order_witness :
  exists faces_2d,
    get_filled_projection cos_45 sin_45 triangle_mesh "side"
    = Ok (get_projection cos_45 sin_45 triangle_mesh "side", faces_2d) /\
    length faces_2d = length (faces triangle_mesh) /\
    forall k a b c, nth_error (faces triangle_mesh) k = Some (a, b, c) ->
      exists p_a p_b p_c,
        nth_error (get_projection cos_45 sin_45 triangle_mesh "side") a
        = Some p_a /\
        nth_error (get_projection cos_45 sin_45 triangle_mesh "side") b
        = Some p_b /\
        nth_error (get_projection cos_45 sin_45 triangle_mesh "side") c
        = Some p_c /\
        nth_error faces_2d k = Some [p_a; p_b; p_c].
Proof.
  apply (get_filled_projection_face_order cos_45 sin_45 triangle_mesh "side").
  split; repeat constructor; simpl; lia.
Defined.

(** ** When extraction raises *)

Lemma mapM_Ok_inv {A B : Type} (f : A -> result B) (l : list A) (bs : list B) :
  mapM f l = Ok bs -> Forall (fun a => exists b, f a = Ok b) l.
Proof.
  revert bs. induction l as [|a l IH]; simpl; intros bs H; [constructor|].
  destruct (f a) as [b|] eqn:Ef; simpl in H; [|discriminate].
  destruct (mapM f l) as [bs'|]; simpl in H; [|discriminate].
  constructor; eauto.
Qed.

Lemma mapM_Raise_inv {A B : Type} (f : A -> result B) (l : list A) (e : exn) :
  mapM f l = Raise e -> exists a, In a l /\ f a = Raise e.
Proof.
  induction l as [|a l IH]; simpl; intros H; [discriminate|].
  destruct (f a) as [b|e'] eqn:Ef; simpl in H.
  - destruct (mapM f l) as [bs'|e'']; simpl in H; [discriminate|].
    destruct IH as (a' & Hin & Ha'); [congruence|]. eauto.
  - inversion H; subst. eauto.
Qed.

Lemma getitem_Raise {A : Type} (arr : list A) (i : nat) (e : exn) :
  getitem arr i = Raise e -> e = IndexError /\ (length arr <= i)%nat.
Proof.
  unfold getitem. destruct (nth_error arr i) eqn:E; [discriminate|].
  intros H. inversion H. split; [reflexivity|]. now apply nth_error_None.
Qed.

Lemma getitem_Ok_lt {A : Type} (arr : list A) (i : nat) (a : A) :
  getitem arr i = Ok a -> (i < length arr)%nat.
Proof.
  intros H. apply getitem_Ok in H. apply nth_error_Some. congruence.
Qed.

Lemma take_face_Raise {A : Type} (arr : list A) (face : nat * nat * nat)
    (e : exn) :
  take_face arr face = Raise e -> e = IndexError.
Proof.
  destruct face as [[a b] c]. unfold take_face. intros H.
  apply mapM_Raise_inv in H. destruct H as (i & _ & Hi).
  now apply getitem_Raise in Hi.
Qed.

Lemma take_face_Ok_in_range {A : Type} (arr : list A)
    (face : nat * nat * nat) (pts : list A) :
  take_face arr face = Ok pts -> face_in_range (length arr) face.
Proof.
  destruct face as [[a b] c]. intros H. apply take_face_Ok in H.
  destruct H as (pa & pb & pc & Ha & Hb & Hc & _).
  simpl. repeat split; apply nth_error_Some; congruence.
Qed.

(** For a mesh whose face and edge indices are non-negative (what
    [trimesh] builds, and all the index type of the embedding holds):
    extraction raises nothing but IndexError, and succeeds exactly when
    every index it reads is below the vertex count. *)
Theorem extraction_raises_only_index_error
    (cos_a sin_a : Q) (mesh : Trimesh) (view : string) :
  ((exists edges, get_outline_edges cos_a sin_a mesh view = Ok edges) <->
   Forall (edge_in_range (length (vertices mesh))) (edges_unique mesh)) /\
  ((exists r, get_filled_projection cos_a sin_a mesh view = Ok r) <->
   Forall (face_in_range (length (vertices mesh))) (faces mesh)) /\
  (forall e, get_outline_edges cos_a sin_a mesh view = Raise e ->
             e = IndexError) /\
  (forall e, get_filled_projection cos_a sin_a mesh view = Raise e ->
             e = IndexError).
Proof.
  pose proof (get_projection_length cos_a sin_a mesh view) as Hlen.
  split; [|split; [|split]].
  - split.
    + intros [edges H]. unfold get_outline_edges in H.
      apply mapM_Ok_inv in H. eapply Forall_impl; [|exact H].
      intros [i j] [pq Hpq]. cbn [fst snd] in Hpq.
      destruct (getitem _ i) eqn:Ei; cbn [bind] in Hpq; [|discriminate].
      destruct (getitem _ j) eqn:Ej; cbn [bind] in Hpq; [|discriminate].
      apply getitem_Ok_lt in Ei, Ej. rewrite Hlen in Ei, Ej.
      split; assumption.
    + intros H. unfold get_outline_edges. apply mapM_total.
      eapply Forall_impl; [|exact H].
      intros [i j] [Hi Hj]; cbn [fst snd] in *.
      rewrite <- Hlen in Hi, Hj.
      destruct (getitem_in_range _ _ Hi) as [p_i Ei].
      destruct (getitem_in_range _ _ Hj) as [p_j Ej].
      rewrite Ei, Ej. cbn [bind]. eauto.
  - split.
    + intros [r H]. unfold get_filled_projection in H.
      destruct (mapM _ (faces mesh)) as [fs|] eqn:E; [|discriminate].
      apply mapM_Ok_inv in E. eapply Forall_impl; [|exact E].
      intros f [pts Hpts]. apply take_face_Ok_in_range in Hpts.
      now rewrite Hlen in Hpts.
    + intros H. unfold get_filled_projection.
      destruct (mapM_total (take_face (get_projection cos_a sin_a mesh view))
                           (faces mesh)) as [fs Hfs].
      * eapply Forall_impl; [|exact H]. intros f Hf.
        apply take_face_total. now rewrite Hlen.
      * rewrite Hfs. cbn [bind]. eauto.
  - intros e H. unfold get_outline_edges in H.
    apply mapM_Raise_inv in H. destruct H as ([i j] & _ & H).
    cbn [fst snd] in H.
    destruct (getitem _ i) eqn:Ei; cbn [bind] in H.
    + destruct (getitem _ j) eqn:Ej; cbn [bind] in H; [discriminate|].
      inversion H; subst. now apply getitem_Raise in Ej.
    + inversion H; subst. now apply getitem_Raise in Ei.
  - intros e H. unfold get_filled_projection in H.
    destruct (mapM _ (faces mesh)) as [fs|e'] eqn:E; cbn [bind] in H;
      [discriminate|].
    inversion H; subst.
    apply mapM_Raise_inv in E. destruct E as (f & _ & Hf).
    now apply take_face_Raise in Hf.
Qed.

(** * Further properties of the encoders *)

Lemma nth_error_map_inv {A B : Type} (f : A -> B) (l : list A) (n : nat)
    (b : B) :
  nth_error (map f l) n = Some b ->
  exists a, nth_error l n = Some a /\ b = f a.
Proof.
  rewrite nth_error_map. destruct (nth_error l n) as [a|]; simpl; intros H.
  - inversion H. eauto.
  - discriminate.
Qed.

(** The 'filled' branch once more, with the bounding box it uses. *)
Lemma filled_branch_box (cos_a sin_a : Q) (mesh : Trimesh) (view : string)
    (size : Z) :
  mesh_wf mesh -> vertices mesh <> [] ->
  exists min_vals scale faces_pts,
    array_min (get_projection cos_a sin_a mesh view) = Ok min_vals /\
    normalize_coords (get_projection cos_a sin_a mesh view) size default_margin
    = Ok (map (affine min_vals scale default_margin)
              (get_projection cos_a sin_a mesh view), scale) /\
    mapM (take_face (map (affine min_vals scale default_margin)
                         (get_projection cos_a sin_a mesh view)))
         (faces mesh) = Ok faces_pts /\
    to_svg cos_a sin_a mesh view size "filled"
    = Ok {| svg_size := (size, size);
            svg_elements :=
              SvgRect (0, 0)%Z (size, size) "white"
              :: map (fun pts => SvgPolygon (map (flip_y size) pts)
                                            "lightgray" "black" (1 # 2))
                     faces_pts |} /\
    to_png cos_a sin_a mesh view size "filled"
    = Ok {| img_size := (size, size); img_background := Named "white";
            img_ops :=
              map (fun pts => DrawPolygon (map (flip_y size) pts)
                                          (RGB 200 200 200) (RGB 0 0 0))
                  faces_pts |}.
Proof.
  intros Hwf Hv.
  destruct (get_filled_projection_total cos_a sin_a mesh view Hwf) as [fs Hfs].
  destruct (normalize_coords_total
              (get_projection cos_a sin_a mesh view) size default_margin)
    as (mn & scale & Hmn & Hn).
  { now apply get_projection_nonempty. }
  destruct (mapM_total
              (take_face (map (affine mn scale default_margin)
                              (get_projection cos_a sin_a mesh view)))
              (faces mesh)) as [pts Hpts].
  { destruct Hwf as [Hfaces _].
    eapply Forall_impl; [|exact Hfaces]. intros f Hf.
    apply take_face_total. now rewrite length_map, get_projection_length. }
  exists mn, scale, pts.
  split; [exact Hmn|]. split; [exact Hn|]. split; [exact Hpts|].
  unfold to_svg, to_png. cbn [String.eqb Ascii.eqb Bool.eqb].
  rewrite Hfs. cbn [bind]. rewrite Hn. cbn [bind].
  rewrite !mapM_bind_pure, Hpts. split; reflexivity.
Qed.

(** In 'filled' mode, on a well-formed mesh with a vertex, [to_svg] and
    [to_png] normalize the whole projection (every vertex, used by a face
    or not) with one bounding box and one scale, and draw one polygon per
    face, in face order: the k-th polygon goes through the images of the
    k-th face's three vertices under [p |-> (p - min) * scale + margin]
    followed by [y' = size - y].  The markup document starts with the
    white background rectangle. *)
Theorem filled_polygons_positional
    (cos_a sin_a : Q) (mesh : Trimesh) (view : string) (size : Z) :
  mesh_wf mesh -> vertices mesh <> [] ->
  exists min_vals normalized scale svg png,
    array_min (get_projection cos_a sin_a mesh view) = Ok min_vals /\
    normalize_coords (get_projection cos_a sin_a mesh view) size default_margin
    = Ok (normalized, scale) /\
    to_svg cos_a sin_a mesh view size "filled" = Ok svg /\
    to_png cos_a sin_a mesh view size "filled" = Ok png /\
    nth_error (svg_elements svg) 0
    = Some (SvgRect (0, 0)%Z (size, size) "white") /\
    length (svg_elements svg) = S (length (faces mesh)) /\
    length (img_ops png) = length (faces mesh) /\
    forall k a b c, nth_error (faces mesh) k = Some (a, b, c) ->
      exists p_a p_b p_c q_a q_b q_c,
        nth_error (get_projection cos_a sin_a mesh view) a = Some p_a /\
        nth_error (get_projection cos_a sin_a mesh view) b = Some p_b /\
        nth_error (get_projection cos_a sin_a mesh view) c = Some p_c /\
        q_a = ((fst p_a - fst min_vals) * scale + inject_Z default_margin,
               (snd p_a - snd min_vals) * scale + inject_Z default_margin) /\
        q_b = ((fst p_b - fst min_vals) * scale + inject_Z default_margin,
               (snd p_b - snd min_vals) * scale + inject_Z default_margin) /\
        q_c = ((fst p_c - fst min_vals) * scale + inject_Z default_margin,
               (snd p_c - snd min_vals) * scale + inject_Z default_margin) /\
        nth_error (svg_elements svg) (S k)
        = Some (SvgPolygon [(fst q_a, inject_Z size - snd q_a);
                            (fst q_b, inject_Z size - snd q_b);
                            (fst q_c, inject_Z size - snd q_c)]
                           "lightgray" "black" (1 # 2)) /\
        nth_error (img_ops png) k
        = Some (DrawPolygon [(fst q_a, inject_Z size - snd q_a);
                             (fst q_b, inject_Z size - snd q_b);
                             (fst q_c, inject_Z size - snd q_c)]
                            (RGB 200 200 200) (RGB 0 0 0)).
Proof.
  intros Hwf Hv.
  destruct (filled_branch_box cos_a sin_a mesh view size Hwf Hv)
    as (mn & scale & pts & Hmn & Hn & Hpts & Hsvg & Hpng).
  exists mn. eexists _, scale, _, _.
  split; [exact Hmn|]. split; [exact Hn|].
  split; [exact Hsvg|]. split; [exact Hpng|].
  cbn [svg_elements img_ops]. split; [reflexivity|].
  split; [cbn [length]; now rewrite length_map, (mapM_length _ _ _ Hpts)|].
  split; [now rewrite length_map, (mapM_length _ _ _ Hpts)|].
  intros k a b c Hk.
  destruct (mapM_nth _ _ _ Hpts k (a, b, c) Hk) as (ps & Hps & Hf).
  apply take_face_Ok in Hf.
  destruct Hf as (qa & qb & qc & Ha & Hb & Hc & ->).
  apply nth_error_map_inv in Ha, Hb, Hc.
  destruct Ha as (p_a & Ha & ->), Hb as (p_b & Hb & ->),
           Hc as (p_c & Hc & ->).
  exists p_a, p_b, p_c. eexists _, _, _.
  split; [exact Ha|]. split; [exact Hb|]. split; [exact Hc|].
  split; [reflexivity|]. split; [reflexivity|]. split; [reflexivity|].
  split.
  - cbn [nth_error]. exact (map_nth_error _ _ _ Hps).
  - exact (map_nth_error _ _ _ Hps).
Qed.

Lemma filled_polygons_positional_witness :
  exists min_vals normalized scale svg png,
    array_min (get_projection cos_45 sin_45 triangle_mesh "top") = Ok min_vals /\
    normalize_coords (get_projection cos_45 sin_45 triangle_mesh "top")
                     1000 default_margin
    = Ok (normalized, scale) /\
    to_svg cos_45 sin_45 triangle_mesh "top" 1000 "filled" = Ok svg /\
    to_png cos_45 sin_45 triangle_mesh "top" 1000 "filled" = Ok png /\
    nth_error (svg_elements svg) 0
    = Some (SvgRect (0, 0)%Z (1000, 1000)%Z "white") /\
    length (svg_elements svg) = S (length (faces triangle_mesh)) /\
    length (img_ops png) = length (faces triangle_mesh) /\
    forall k a b c, nth_error (faces triangle_mesh) k = Some (a, b, c) ->
      exists p_a p_b p_c q_a q_b q_c,
        nth_error (get_projection cos_45 sin_45 triangle_mesh "top") a
        = Some p_a /\
        nth_error (get_projection cos_45 sin_45 triangle_mesh "top") b
        = Some p_b /\
        nth_error (get_projection cos_45 sin_45 triangle_mesh "top") c
        = Some p_c /\
        q_a = ((fst p_a - fst min_vals) * scale + inject_Z default_margin,
               (snd p_a - snd min_vals) * scale + inject_Z default_margin) /\
        q_b = ((fst p_b - fst min_vals) * scale + inject_Z default_margin,
               (snd p_b - snd min_vals) * scale + inject_Z default_margin) /\
        q_c = ((fst p_c - fst min_vals) * scale + inject_Z default_margin,
               (snd p_c - snd min_vals) * scale + inject_Z default_margin) /\
        nth_error (svg_elements svg) (S k)
        = Some (SvgPolygon [(fst q_a, inject_Z 1000 - snd q_a);
                            (fst q_b, inject_Z 1000 - snd q_b);
                            (fst q_c, inject_Z 1000 - snd q_c)]
                           "lightgray" "black" (1 # 2)) /\
        nth_error (img_ops png) k
        = Some (DrawPolygon [(fst q_a, inject_Z 1000 - snd q_a);
                             (fst q_b, inject_Z 1000 - snd q_b);
                             (fst q_c, inject_Z 1000 - snd q_c)]
                            (RGB 200 200 200) (RGB 0 0 0)).
Proof.
  apply (filled_polygons_positional cos_45 sin_45 triangle_mesh "top" 1000).
  - split; repeat constructor; simpl; lia.
  - discriminate.
Defined.

(** ** The encoders fail together *)

Lemma same_outcome_bind {A A' B B' : Type} (r : result A) (r' : result A')
    (k : A -> result B) (k' : A' -> result B') :
  same_outcome r r' ->
  (forall a a', r = Ok a -> r' = Ok a' -> same_outcome (k a) (k' a')) ->
  same_outcome (bind r k) (bind r' k').
Proof.
  destruct r, r'; simpl; intros H Hk; try contradiction; auto.
Qed.

Lemma same_outcome_refl_bind {A B B' : Type} (r : result A)
    (k : A -> result B) (k' : A -> result B') :
  (forall a, r = Ok a -> same_outcome (k a) (k' a)) ->
  same_outcome (bind r k) (bind r k').
Proof.
  destruct r; simpl; intros Hk; auto.
Qed.

Lemma same_outcome_mapM_pure {A B C C' : Type} (f : A -> result B)
    (g : B -> C) (g' : B -> C') (l : list A) :
  same_outcome (mapM (fun a => b <- f a ;; Ok (g b)) l)
               (mapM (fun a => b <- f a ;; Ok (g' b)) l).
Proof.
  rewrite !mapM_bind_pure. destruct (mapM f l); simpl; auto.
Qed.

Lemma same_outcome_edge_loop {A B B' : Type} (draw : point2 -> point2 -> B)
    (draw' : point2 -> point2 -> B') (edges : list A)
    (normalized : list point2) (point_idx : nat) :
  same_outcome (edge_loop draw edges normalized point_idx)
               (edge_loop draw' edges normalized point_idx).
Proof.
  revert point_idx. induction edges as [|e edges IH]; intros idx; simpl; auto.
  destruct (getitem normalized idx); simpl; auto.
  destruct (getitem normalized (idx + 1)); simpl; auto.
  specialize (IH (idx + 2)%nat).
  destruct (edge_loop draw edges normalized (idx + 2)),
           (edge_loop draw' edges normalized (idx + 2));
    simpl in *; auto.
Qed.

Lemma to_svg_to_png_same_outcome
    (cos_a sin_a : Q) (mesh : Trimesh) (view : string) (size : Z)
    (mode : string) :
  same_outcome (to_svg cos_a sin_a mesh view size mode)
               (to_png cos_a sin_a mesh view size mode).
Proof.
  unfold to_svg, to_png. destruct (mode =? "filled")%string.
  - apply same_outcome_refl_bind. intros [projection fs] _.
    apply same_outcome_refl_bind. intros [normalized scale] _.
    apply same_outcome_bind.
    + exact (same_outcome_mapM_pure (take_face normalized)
               (fun pts => SvgPolygon (map (flip_y size) pts)
                                      "lightgray" "black" (1 # 2))
               (fun pts => DrawPolygon (map (flip_y size) pts)
                                       (RGB 200 200 200) (RGB 0 0 0))
               (faces mesh)).
    + intros; exact I.
  - apply same_outcome_refl_bind. intros edges _.
    apply same_outcome_refl_bind. intros all_points _.
    apply same_outcome_refl_bind. intros [normalized scale] _.
    apply same_outcome_bind.
    + apply same_outcome_edge_loop.
    + intros; exact I.
Qed.

(** The markup and raster encoders fail together: for a canvas size
    the endpoints accept (100 to 4000, for which [Image.new] allocates
    the raster), [to_svg] raises an exception exactly when [to_png]
    raises it, the same one, and either returns a document exactly when
    the other does. *)
Theorem to_svg_to_png_fail_together
    (cos_a sin_a : Q) (mesh : Trimesh) (view : string) (size : Z)
    (mode : string) :
  size_accepted size = true ->
  (forall e, to_svg cos_a sin_a mesh view size mode = Raise e <->
             to_png cos_a sin_a mesh view size mode = Raise e) /\
  ((exists svg, to_svg cos_a sin_a mesh view size mode = Ok svg) <->
   (exists png, to_png cos_a sin_a mesh view size mode = Ok png)).
Proof.
  intros _.
  pose proof (to_svg_to_png_same_outcome cos_a sin_a mesh view size mode) as H.
  destruct (to_svg cos_a sin_a mesh view size mode) as [svg|e1],
           (to_png cos_a sin_a mesh view size mode) as [png|e2];
    simpl in H; try contradiction.
  - split.
    + intros e; split; discriminate.
    + split; eauto.
  - subst. split.
    + intros e. split; intros He; inversion He; reflexivity.
    + split; intros [x Hx]; discriminate.
Qed.

Lemma to_svg_to_png_fail_together_witness :
  (forall e,
     to_svg cos_45 sin_45 points_only_mesh "top" 1000 "outline" = Raise e <->
     to_png cos_45 sin_45 points_only_mesh "top" 1000 "outline" = Raise e) /\
  ((exists svg,
      to_svg cos_45 sin_45 points_only_mesh "top" 1000 "outline" = Ok svg) <->
   (exists png,
      to_png cos_45 sin_45 points_only_mesh "top" 1000 "outline" = Ok png)).
Proof.
  apply (to_svg_to_png_fail_together
           cos_45 sin_45 points_only_mesh "top" 1000 "outline").
  reflexivity.
Defined.


(** ** One CAD entity per drawn primitive *)

(** Whenever [to_svg] returns a document, [to_dxf] returns one too, for
    the same mesh, view and mode, with exactly one entity per primitive
    drawn after the background rectangle. *)
Theorem to_dxf_succeeds_with_to_svg
    (cos_a sin_a : Q) (mesh : Trimesh) (view : string) (size : Z)
    (mode : string) :
  (exists svg, to_svg cos_a sin_a mesh view size mode = Ok svg) ->
  exists svg doc,
    to_svg cos_a sin_a mesh view size mode = Ok svg /\
    to_dxf cos_a sin_a mesh view mode = Ok doc /\
    length (svg_elements svg) = S (length doc).
Proof.
  intros [svg H]. exists svg. revert H. unfold to_svg, to_dxf.
  destruct (mode =? "filled")%string; intros H.
  - destruct (get_filled_projection cos_a sin_a mesh view)
      as [[projection fs]|] eqn:Ef; cbn [bind] in H |- *; [|discriminate].
    destruct (normalize_coords projection size default_margin)
      as [[normalized scale]|]; cbn [bind] in H |- *; [|discriminate].
    destruct (mapM _ (faces mesh)) as [polygons|] eqn:Ep;
      cbn [bind] in H |- *; [|discriminate].
    injection H as <-. cbn [bind svg_elements length].
    eexists. split; [reflexivity|]. split; [reflexivity|].
    apply get_filled_projection_nth in Ef. destruct Ef as (_ & Hlen & _).
    f_equal. rewrite length_map, (mapM_length _ _ _ Ep).
    symmetry. exact Hlen.
  - destruct (get_outline_edges cos_a sin_a mesh view) as [edges|] eqn:Ee;
      cbn [bind] in H |- *; [|discriminate].
    destruct (vstack (flatten_edges edges)) as [all_points|];
      cbn [bind] in H |- *; [|discriminate].
    destruct (normalize_coords all_points size default_margin)
      as [[normalized scale]|]; cbn [bind] in H |- *; [|discriminate].
    destruct (edge_loop _ edges normalized 0) as [lines|] eqn:El;
      cbn [bind] in H |- *; [|discriminate].
    injection H as <-. cbn [bind svg_elements length].
    eexists. split; [reflexivity|]. split; [reflexivity|].
    rewrite length_map. f_equal.
    clear - El. revert El. generalize 0%nat. revert lines.
    induction edges as [|e edges IH]; simpl; intros lines idx El.
    + now inversion El.
    + destruct (getitem normalized idx); cbn [bind] in El; [|discriminate].
      destruct (getitem normalized (idx + 1)); cbn [bind] in El;
        [|discriminate].
      destruct (edge_loop _ edges normalized (idx + 2)) as [rest|] eqn:E;
        cbn [bind] in El; [|discriminate].
      inversion El; subst. simpl. f_equal. eapply IH; eauto.
Qed.

Lemma to_dxf_succeeds_with_to_svg_witness :
  exists svg doc,
    to_svg cos_45 sin_45 triangle_mesh "front" 1000 "wireframe" = Ok svg /\
    to_dxf cos_45 sin_45 triangle_mesh "front" "wireframe" = Ok doc /\
    length (svg_elements svg) = S (length doc).
Proof.
  apply (to_dxf_succeeds_with_to_svg
           cos_45 sin_45 triangle_mesh "front" 1000 "wireframe").
  eexists. reflexivity.
Defined.

(** * The conversion endpoints *)

(** Every encoder returns on a well-formed mesh that has what the mode
    draws: a vertex in 'filled' mode, a unique edge otherwise. *)
Lemma encoders_total (cos_a sin_a : Q) (mesh : Trimesh) (view : string)
    (size : Z) (mode : string) :
  mesh_wf mesh ->
  (mode = "filled"%string -> vertices mesh <> []) ->
  (mode <> "filled"%string -> edges_unique mesh <> []) ->
  (exists doc, to_dxf cos_a sin_a mesh view mode = Ok doc) /\
  (exists svg, to_svg cos_a sin_a mesh view size mode = Ok svg) /\
  (exists png, to_png cos_a sin_a mesh view size mode = Ok png).
Proof.
  intros Hwf Hfilled Hedges.
  destruct (mode =? "filled")%string eqn:Em.
  - apply String.eqb_eq in Em. subst mode. specialize (Hfilled eq_refl).
    destruct (filled_branch cos_a sin_a mesh view size Hwf Hfilled)
      as (mn & scale & pts & _ & _ & Hsvg & Hpng).
    destruct (get_filled_projection_total cos_a sin_a mesh view Hwf)
      as [fs Hfs].
    split; [|eauto].
    unfold to_dxf. cbn [String.eqb Ascii.eqb Bool.eqb].
    rewrite Hfs. cbn [bind]. eauto.
  - pose proof Em as Em'. apply String.eqb_neq in Em'.
    specialize (Hedges Em').
    destruct (get_outline_edges_total cos_a sin_a mesh view Hwf)
      as [edges He].
    destruct (get_outline_edges_nth _ _ _ _ _ He) as [Hlen _].
    assert (Hnonempty : edges <> []).
    { intros ->. apply Hedges. apply length_zero_iff_nil.
      now rewrite <- Hlen. }
    destruct (edge_branch cos_a sin_a mesh view size mode edges Em' He
                          Hnonempty)
      as (mn & scale & _ & _ & Hsvg & Hpng).
    split; [|eauto].
    unfold to_dxf. rewrite Em, He. cbn [bind]. eauto.
Qed.

Lemma or_500_cases (r : result response) :
  (exists resp, r = Ok resp /\ or_500 r = resp) \/
  (exists e, r = Raise e /\ or_500 r = HTTPException 500).
Proof. destruct r; simpl; eauto. Qed.

(** The body of [convert_cad]'s [try] block, for a loaded mesh. *)
Lemma convert_cad_loaded (cos_a sin_a : Q) (file_ext stem : string)
    (mesh : Trimesh) (output_format view : string) (size : Z)
    (mode : string) :
  mem_string file_ext ALL_FORMATS = true ->
  convert_cad cos_a sin_a file_ext stem (Ok mesh) output_format view size mode
  = or_500
      (if (output_format =? "dxf")%string then
         doc <- to_dxf cos_a sin_a mesh view mode ;;
         Ok (FileResponse
               (stem ++ "_" ++ view ++ "_" ++ mode ++ "." ++ output_format)
               "application/dxf" (DxfFile doc))
       else if (output_format =? "svg")%string then
         doc <- to_svg cos_a sin_a mesh view size mode ;;
         Ok (FileResponse
               (stem ++ "_" ++ view ++ "_" ++ mode ++ "." ++ output_format)
               "image/svg+xml" (SvgFile doc))
       else
         img <- to_png cos_a sin_a mesh view size mode ;;
         Ok (FileResponse
               (stem ++ "_" ++ view ++ "_" ++ mode ++ "." ++ output_format)
               "image/png" (PngFile img))).
Proof.
  intros Hext. unfold convert_cad. rewrite Hext. reflexivity.
Qed.

(** What one member of the archive is, against the single-file endpoint. *)
Lemma batch_member_is_convert_cad (cos_a sin_a : Q) (file_ext stem : string)
    (mesh : Trimesh) (fmt view : string) (size : Z) (mode : string)
    (member : string * output) :
  mem_string file_ext ALL_FORMATS = true ->
  (if (fmt =? "dxf")%string then
     doc <- to_dxf cos_a sin_a mesh view mode ;;
     Ok ((stem ++ "_" ++ view ++ "_" ++ mode ++ "." ++ fmt)%string, DxfFile doc)
   else if (fmt =? "svg")%string then
     doc <- to_svg cos_a sin_a mesh view size mode ;;
     Ok ((stem ++ "_" ++ view ++ "_" ++ mode ++ "." ++ fmt)%string, SvgFile doc)
   else
     img <- to_png cos_a sin_a mesh view size mode ;;
     Ok ((stem ++ "_" ++ view ++ "_" ++ mode ++ "." ++ fmt)%string, PngFile img))
  = Ok member ->
  fst member = (stem ++ "_" ++ view ++ "_" ++ mode ++ "." ++ fmt)%string /\
  exists media_type,
    convert_cad cos_a sin_a file_ext stem (Ok mesh) fmt view size mode
    = FileResponse (fst member) media_type (snd member).
Proof.
  intros Hext H. rewrite (convert_cad_loaded _ _ _ _ _ _ _ _ _ Hext).
  destruct (fmt =? "dxf")%string; [|destruct (fmt =? "svg")%string].
  - destruct (to_dxf cos_a sin_a mesh view mode); cbn [bind] in *;
      [|discriminate].
    injection H as <-. split; [reflexivity|]. eexists. reflexivity.
  - destruct (to_svg cos_a sin_a mesh view size mode); cbn [bind] in *;
      [|discriminate].
    injection H as <-. split; [reflexivity|]. eexists. reflexivity.
  - destruct (to_png cos_a sin_a mesh view size mode); cbn [bind] in *;
      [|discriminate].
    injection H as <-. split; [reflexivity|]. eexists. reflexivity.
Qed.

Lemma batch_member_raises_is_500 (cos_a sin_a : Q) (file_ext stem : string)
    (mesh : Trimesh) (fmt view : string) (size : Z) (mode : string) :
  mem_string file_ext ALL_FORMATS = true ->
  ((exists e,
      (if (fmt =? "dxf")%string then
         doc <- to_dxf cos_a sin_a mesh view mode ;;
         Ok ((stem ++ "_" ++ view ++ "_" ++ mode ++ "." ++ fmt)%string,
             DxfFile doc)
       else if (fmt =? "svg")%string then
         doc <- to_svg cos_a sin_a mesh view size mode ;;
         Ok ((stem ++ "_" ++ view ++ "_" ++ mode ++ "." ++ fmt)%string,
             SvgFile doc)
       else
         img <- to_png cos_a sin_a mesh view size mode ;;
         Ok ((stem ++ "_" ++ view ++ "_" ++ mode ++ "." ++ fmt)%string,
             PngFile img))
      = Raise e) <->
   convert_cad cos_a sin_a file_ext stem (Ok mesh) fmt view size mode
   = HTTPException 500).
Proof.
  intros Hext. rewrite (convert_cad_loaded _ _ _ _ _ _ _ _ _ Hext).
  destruct (fmt =? "dxf")%string; [|destruct (fmt =? "svg")%string].
  - destruct (to_dxf cos_a sin_a mesh view mode); cbn [bind or_500];
      split; try discriminate; eauto. intros [e H]. discriminate.
  - destruct (to_svg cos_a sin_a mesh view size mode); cbn [bind or_500];
      split; try discriminate; eauto. intros [e H]. discriminate.
  - destruct (to_png cos_a sin_a mesh view size mode); cbn [bind or_500];
      split; try discriminate; eauto. intros [e H]. discriminate.
Qed.

Lemma mem_string_In (s : string) (formats : list string) :
  mem_string s formats = true <-> In s formats.
Proof.
  unfold mem_string. rewrite existsb_exists. split.
  - intros (x & Hx & E). apply String.eqb_eq in E. now subst.
  - intros H. exists s. split; [exact H|apply String.eqb_refl].
Qed.

Lemma mem_string_not_In (s : string) (formats : list string) :
  mem_string s formats = false <-> ~ In s formats.
Proof.
  rewrite <- mem_string_In. destruct (mem_string s formats).
  - split; [discriminate|]. intros H. exfalso. now apply H.
  - split; [discriminate|reflexivity].
Qed.

Lemma mapM_same_length {A B : Type} (f : A -> result (list B)) (n : nat)
    (l : list A) (bss : list (list B)) :
  (forall a bs, f a = Ok bs -> length bs = n) ->
  mapM f l = Ok bss -> Forall (fun bs => length bs = n) bss.
Proof.
  intros Hf H. eapply mapM_Forall; [exact H|]. intros a bs _. apply Hf.
Qed.

Lemma concat_uniform_length {B : Type} (n : nat) (bss : list (list B)) :
  Forall (fun bs => length bs = n) bss ->
  length (concat bss) = (length bss * n)%nat.
Proof.
  induction 1 as [|bs bss Hbs _ IH]; [reflexivity|].
  cbn [concat length]. rewrite length_app, IH, Hbs. lia.
Qed.

Lemma concat_uniform_nth {B : Type} (n : nat) (bss : list (list B))
    (i j : nat) (bs : list B) (b : B) :
  Forall (fun bs => length bs = n) bss ->
  nth_error bss i = Some bs -> nth_error bs j = Some b ->
  nth_error (concat bss) (i * n + j) = Some b.
Proof.
  intros Hall. revert i. induction Hall as [|bs0 bss Hbs0 _ IH]; intros i Hi Hj.
  - destruct i; discriminate.
  - destruct i as [|i]; cbn [concat].
    + injection Hi as ->. change (0 * n + j)%nat with j.
      rewrite nth_error_app1; [exact Hj|].
      apply nth_error_Some. rewrite Hj. discriminate.
    + cbn [nth_error] in Hi. rewrite nth_error_app2 by lia.
      replace (S i * n + j - length bs0)%nat with (i * n + j)%nat by lia.
      now apply IH.
Qed.

(** An unsupported extension is the only source of status 400, in both
    endpoints, and it is answered whatever the file holds: the extension
    is tested before the file is loaded. *)
Theorem unsupported_extension_is_400
    (cos_a sin_a : Q) (file_ext stem : string) (loaded : result Trimesh)
    (output_format view : string) (output_formats views : list string)
    (size : Z) (mode : string) :
  (convert_cad cos_a sin_a file_ext stem loaded output_format view size mode
   = HTTPException 400 <->
   ~ In file_ext [".stl"; ".obj"; ".ply"; ".off"; ".glb"; ".gltf";
                  ".step"; ".stp"]%string) /\
  (batch_convert cos_a sin_a file_ext stem loaded output_formats views size mode
   = HTTPException 400 <->
   ~ In file_ext [".stl"; ".obj"; ".ply"; ".off"; ".glb"; ".gltf";
                  ".step"; ".stp"]%string).
Proof.
  change [".stl"; ".obj"; ".ply"; ".off"; ".glb"; ".gltf"; ".step"; ".stp"]%string
    with ALL_FORMATS.
  rewrite <- mem_string_not_In.
  unfold convert_cad, batch_convert.
  destruct (mem_string file_ext ALL_FORMATS); cbn [negb]; split;
    try (split; [reflexivity|reflexivity]); split; try discriminate.
  - destruct loaded as [mesh|]; cbn [bind or_500]; [|discriminate].
    destruct (output_format =? "dxf")%string;
      [|destruct (output_format =? "svg")%string].
    + destruct (to_dxf cos_a sin_a mesh view mode); discriminate.
    + destruct (to_svg cos_a sin_a mesh view size mode); discriminate.
    + destruct (to_png cos_a sin_a mesh view size mode); discriminate.
  - destruct loaded as [mesh|]; cbn [bind or_500]; [|discriminate].
    destruct (mapM _ views); discriminate.
Qed.

(** A supported file that loads to a well-formed mesh with something to
    draw (a vertex in 'filled' mode, a unique edge otherwise) is always
    converted: [convert_cad] serves a file named
    [stem_view_mode.format] whose kind follows the requested format
    ("dxf", "svg", anything else being treated as "png"), and
    [batch_convert] serves an archive named [stem_batch.zip] with one
    member per view and format. *)
Theorem well_formed_mesh_is_served
    (cos_a sin_a : Q) (file_ext stem : string) (mesh : Trimesh)
    (output_format view : string) (output_formats views : list string)
    (size : Z) (mode : string) :
  In file_ext ALL_FORMATS ->
  mesh_wf mesh ->
  (mode = "filled"%string -> vertices mesh <> []) ->
  (mode <> "filled"%string -> edges_unique mesh <> []) ->
  (exists media_type body,
     convert_cad cos_a sin_a file_ext stem (Ok mesh) output_format view size mode
     = FileResponse
         (stem ++ "_" ++ view ++ "_" ++ mode ++ "." ++ output_format)
         media_type body /\
     (output_format = "dxf"%string ->
      media_type = "application/dxf"%string /\ exists doc, body = DxfFile doc) /\
     (output_format = "svg"%string ->
      media_type = "image/svg+xml"%string /\ exists doc, body = SvgFile doc) /\
     (output_format <> "dxf"%string -> output_format <> "svg"%string ->
      media_type = "image/png"%string /\ exists img, body = PngFile img)) /\
  (exists members,
     batch_convert cos_a sin_a file_ext stem (Ok mesh) output_formats views
                   size mode
     = ZipResponse (stem ++ "_batch.zip") members /\
     length members = (length views * length output_formats)%nat).
Proof.
  intros Hext Hwf Hfilled Hedges. apply mem_string_In in Hext.
  assert (Henc : forall v,
            (exists doc, to_dxf cos_a sin_a mesh v mode = Ok doc) /\
            (exists svg, to_svg cos_a sin_a mesh v size mode = Ok svg) /\
            (exists png, to_png cos_a sin_a mesh v size mode = Ok png)).
  { intros v. now apply encoders_total. }
  split.
  - rewrite (convert_cad_loaded _ _ _ _ _ _ _ _ _ Hext).
    destruct (Henc view) as ([doc Hd] & [svg Hs] & [png Hp]).
    destruct (output_format =? "dxf")%string eqn:E1;
      [|destruct (output_format =? "svg")%string eqn:E2].
    + apply String.eqb_eq in E1. subst output_format.
      rewrite Hd. cbn [bind or_500]. eexists _, _. split; [reflexivity|].
      split; [eauto|]. split; [discriminate|]. intros H. now contradiction H.
    + apply String.eqb_eq in E2. subst output_format.
      rewrite Hs. cbn [bind or_500]. eexists _, _. split; [reflexivity|].
      split; [discriminate|]. split; [eauto|].
      intros _ H. now contradiction H.
    + apply String.eqb_neq in E1, E2.
      rewrite Hp. cbn [bind or_500]. eexists _, _. split; [reflexivity|].
      split; [intros H; contradiction|]. split; [intros H; contradiction|].
      eauto.
  - unfold batch_convert. rewrite Hext. cbn [negb bind].
    match goal with |- context [mapM ?f views] => set (outer := f) end.
    destruct (mapM_total outer views) as [members Hm].
    { apply Forall_forall. intros v _. unfold outer. apply mapM_total.
      apply Forall_forall. intros fmt _.
      destruct (Henc v) as ([doc Hd] & [svg Hs] & [png Hp]).
      rewrite Hd, Hs, Hp. cbn [bind].
      destruct (fmt =? "dxf")%string; [|destruct (fmt =? "svg")%string];
        eauto. }
    rewrite Hm. cbn [bind or_500]. eexists. split; [reflexivity|].
    rewrite (concat_uniform_length (length output_formats)).
    + now rewrite (mapM_length _ _ _ Hm).
    + eapply mapM_same_length; [|exact Hm].
      intros v ms Hv. unfold outer in Hv. exact (mapM_length _ _ _ Hv).
Qed.

Lemma well_formed_mesh_is_served_witness :
  (exists media_type body,
     convert_cad cos_45 sin_45 ".stl" "part" (Ok triangle_mesh)
                 "svg" "front" 1000 "wireframe"
     = FileResponse ("part" ++ "_" ++ "front" ++ "_" ++ "wireframe" ++ "." ++ "svg")
                    media_type body /\
     ("svg"%string = "dxf"%string ->
      media_type = "application/dxf"%string /\ exists doc, body = DxfFile doc) /\
     ("svg"%string = "svg"%string ->
      media_type = "image/svg+xml"%string /\ exists doc, body = SvgFile doc) /\
     ("svg"%string <> "dxf"%string -> "svg"%string <> "svg"%string ->
      media_type = "image/png"%string /\ exists img, body = PngFile img)) /\
  (exists members,
     batch_convert cos_45 sin_45 ".stl" "part" (Ok triangle_mesh)
                   ["dxf"; "svg"; "png"]%string ["top"; "front"]%string
                   1000 "wireframe"
     = ZipResponse ("part" ++ "_batch.zip") members /\
     length members
     = (length ["top"; "front"]%string
        * length ["dxf"; "svg"; "png"]%string)%nat).
Proof.
  apply (well_formed_mesh_is_served
           cos_45 sin_45 ".stl" "part" triangle_mesh "svg" "front"
           ["dxf"; "svg"; "png"]%string ["top"; "front"]%string
           1000 "wireframe").
  - simpl. auto.
  - split; repeat constructor; simpl; lia.
  - discriminate.
  - discriminate.
Defined.

(** A mesh without unique edges, outside 'filled' mode: the CAD format is
    served, as a document without entities, while every other format is
    answered with status 500. *)
Theorem edgeless_mesh_dxf_served_others_500
    (cos_a sin_a : Q) (file_ext stem : string) (mesh : Trimesh)
    (view : string) (size : Z) (mode : string) :
  In file_ext ALL_FORMATS ->
  edges_unique mesh = [] -> mode <> "filled"%string ->
  convert_cad cos_a sin_a file_ext stem (Ok mesh) "dxf" view size mode
  = FileResponse (stem ++ "_" ++ view ++ "_" ++ mode ++ "." ++ "dxf")
                 "application/dxf" (DxfFile []) /\
  (forall output_format, output_format <> "dxf"%string ->
     convert_cad cos_a sin_a file_ext stem (Ok mesh) output_format view
                 size mode
     = HTTPException 500).
Proof.
  intros Hext He Hm. apply mem_string_In in Hext.
  apply mode_not_filled in Hm. split.
  - rewrite (convert_cad_loaded _ _ _ _ _ _ _ _ _ Hext).
    cbn [String.eqb Ascii.eqb Bool.eqb].
    unfold to_dxf, get_outline_edges. rewrite Hm, He. reflexivity.
  - intros fmt Hfmt. apply String.eqb_neq in Hfmt.
    rewrite (convert_cad_loaded _ _ _ _ _ _ _ _ _ Hext), Hfmt.
    unfold to_svg, to_png, get_outline_edges. rewrite Hm, He.
    destruct (fmt =? "svg")%string; reflexivity.
Qed.

Lemma edgeless_mesh_dxf_served_others_500_witness :
  convert_cad cos_45 sin_45 ".obj" "cloud" (Ok points_only_mesh)
              "dxf" "top" 1000 "outline"
  = FileResponse ("cloud" ++ "_" ++ "top" ++ "_" ++ "outline" ++ "." ++ "dxf")
                 "application/dxf" (DxfFile []) /\
  (forall output_format, output_format <> "dxf"%string ->
     convert_cad cos_45 sin_45 ".obj" "cloud" (Ok points_only_mesh)
                 output_format "top" 1000 "outline"
     = HTTPException 500).
Proof.
  apply (edgeless_mesh_dxf_served_others_500
           cos_45 sin_45 ".obj" "cloud" points_only_mesh "top" 1000 "outline").
  - simpl. auto.
  - reflexivity.
  - discriminate.
Defined.

(** ** The archive against single conversions *)

(** The archive [batch_convert] serves has one member per view and
    format, views outermost: member [i * (number of formats) + j] is
    named [stem_view_mode.format] for the i-th view and the j-th format,
    and holds exactly the file [convert_cad] serves for that view and
    format. *)
Theorem batch_members_are_single_conversions
    (cos_a sin_a : Q) (file_ext stem : string) (loaded : result Trimesh)
    (output_formats views : list string) (size : Z) (mode : string) :
  (exists filename members,
     batch_convert cos_a sin_a file_ext stem loaded output_formats views
                   size mode
     = ZipResponse filename members) ->
  exists members,
    batch_convert cos_a sin_a file_ext stem loaded output_formats views
                  size mode
    = ZipResponse (stem ++ "_batch.zip") members /\
    length members = (length views * length output_formats)%nat /\
    forall i j view fmt,
      nth_error views i = Some view ->
      nth_error output_formats j = Some fmt ->
      exists media_type body,
        nth_error members (i * length output_formats + j)
        = Some ((stem ++ "_" ++ view ++ "_" ++ mode ++ "." ++ fmt)%string,
                body) /\
        convert_cad cos_a sin_a file_ext stem loaded fmt view size mode
        = FileResponse (stem ++ "_" ++ view ++ "_" ++ mode ++ "." ++ fmt)
                       media_type body.
Proof.
  intros (filename & members & H). unfold batch_convert in *.
  destruct (mem_string file_ext ALL_FORMATS) eqn:Hext; cbn [negb] in *;
    [|discriminate].
  destruct loaded as [mesh|]; cbn [bind or_500] in *; [|discriminate].
  destruct (mapM _ views) as [mss|] eqn:Eouter;
    cbn [bind or_500] in *; [|discriminate].
  clear H. eexists. split; [reflexivity|].
  assert (Hlen : Forall (fun ms => length ms = length output_formats) mss).
  { eapply mapM_same_length; [|exact Eouter].
    intros v ms Hv. exact (mapM_length _ _ _ Hv). }
  split.
  { rewrite (concat_uniform_length _ _ Hlen).
    now rewrite (mapM_length _ _ _ Eouter). }
  intros i j view fmt Hi Hj.
  destruct (mapM_nth _ _ _ Eouter i view Hi) as (ms & Hms & Hinner).
  destruct (mapM_nth _ _ _ Hinner j fmt Hj) as (m & Hm & Hf).
  destruct (batch_member_is_convert_cad cos_a sin_a file_ext stem mesh fmt
              view size mode m Hext Hf) as (Hname & media & Hc).
  exists media, (snd m). split.
  - rewrite (concat_uniform_nth _ _ _ _ _ _ Hlen Hms Hm).
    rewrite <- Hname. now destruct m.
  - rewrite Hc, Hname. reflexivity.
Qed.

Lemma batch_members_are_single_conversions_witness :
  exists members,
    batch_convert cos_45 sin_45 ".stl" "part" (Ok triangle_mesh)
                  ["dxf"; "svg"; "png"]%string ["top"; "front"]%string
                  1000 "wireframe"
    = ZipResponse ("part" ++ "_batch.zip") members /\
    length members
    = (length ["top"; "front"]%string
       * length ["dxf"; "svg"; "png"]%string)%nat /\
    forall i j view fmt,
      nth_error ["top"; "front"]%string i = Some view ->
      nth_error ["dxf"; "svg"; "png"]%string j = Some fmt ->
      exists media_type body,
        nth_error members (i * length ["dxf"; "svg"; "png"]%string + j)
        = Some (("part" ++ "_" ++ view ++ "_" ++ "wireframe" ++ "." ++ fmt)%string,
                body) /\
        convert_cad cos_45 sin_45 ".stl" "part" (Ok triangle_mesh)
                    fmt view 1000 "wireframe"
        = FileResponse ("part" ++ "_" ++ view ++ "_" ++ "wireframe" ++ "." ++ fmt)
                       media_type body.
Proof.
  apply (batch_members_are_single_conversions
           cos_45 sin_45 ".stl" "part" (Ok triangle_mesh)
           ["dxf"; "svg"; "png"]%string ["top"; "front"]%string
           1000 "wireframe").
  eexists _, _. reflexivity.
Defined.

(** The archive is all or nothing: for a supported file that loads,
    [batch_convert] answers status 500 exactly when [convert_cad] answers
    500 for at least one requested view and format. *)
Theorem batch_fails_iff_some_conversion_fails
    (cos_a sin_a : Q) (file_ext stem : string) (mesh : Trimesh)
    (output_formats views : list string) (size : Z) (mode : string) :
  In file_ext ALL_FORMATS ->
  (batch_convert cos_a sin_a file_ext stem (Ok mesh) output_formats views
                 size mode
   = HTTPException 500 <->
   exists view fmt,
     In view views /\ In fmt output_formats /\
     convert_cad cos_a sin_a file_ext stem (Ok mesh) fmt view size mode
     = HTTPException 500).
Proof.
  intros Hext. apply mem_string_In in Hext.
  unfold batch_convert. rewrite Hext. cbn [negb bind].
  destruct (mapM _ views) as [mss|e] eqn:Eouter; cbn [bind or_500]; split.
  - discriminate.
  - intros (view & fmt & Hv & Hf & H500). exfalso.
    apply mapM_Ok_inv in Eouter. rewrite Forall_forall in Eouter.
    destruct (Eouter view Hv) as [ms Hms].
    apply mapM_Ok_inv in Hms. rewrite Forall_forall in Hms.
    destruct (Hms fmt Hf) as [m Hm].
    apply (batch_member_raises_is_500 cos_a sin_a file_ext stem mesh fmt
             view size mode Hext) in H500.
    destruct H500 as [e He]. rewrite Hm in He. discriminate.
  - intros _. apply mapM_Raise_inv in Eouter.
    destruct Eouter as (view & Hv & Hinner).
    apply mapM_Raise_inv in Hinner. destruct Hinner as (fmt & Hf & Hraise).
    exists view, fmt. split; [exact Hv|]. split; [exact Hf|].
    apply (batch_member_raises_is_500 cos_a sin_a file_ext stem mesh fmt
             view size mode Hext).
    eauto.
  - reflexivity.
Qed.

Lemma batch_fails_iff_some_conversion_fails_witness :
  batch_convert cos_45 sin_45 ".obj" "cloud" (Ok points_only_mesh)
                ["dxf"; "svg"]%string ["top"]%string 1000 "outline"
  = HTTPException 500 <->
  exists view fmt,
    In view ["top"]%string /\ In fmt ["dxf"; "svg"]%string /\
    convert_cad cos_45 sin_45 ".obj" "cloud" (Ok points_only_mesh)
                fmt view 1000 "outline"
    = HTTPException 500.
Proof.
  apply (batch_fails_iff_some_conversion_fails
           cos_45 sin_45 ".obj" "cloud" points_only_mesh
           ["dxf"; "svg"]%string ["top"]%string 1000 "outline").
  simpl. auto.
Defined.

(** ** One bounding box for both modes *)

Lemma mapM_In_inv {A B : Type} (f : A -> result B) (l : list A)
    (bs : list B) (b : B) :
  mapM f l = Ok bs -> In b bs -> exists a, In a l /\ f a = Ok b.
Proof.
  revert bs. induction l as [|a l IH]; simpl; intros bs H Hb.
  - inversion H; subst. inversion Hb.
  - destruct (f a) as [b0|] eqn:Ef; cbn [bind] in H; [|discriminate].
    destruct (mapM f l) as [bs'|] eqn:El; cbn [bind] in H; [|discriminate].
    inversion H; subst. destruct Hb as [<-|Hb]; [eauto|].
    destruct (IH bs' eq_refl Hb) as (a' & Ha' & Hfa'). eauto.
Qed.

Lemma is_min_of_same_entries (m : Q) (xs ys : list Q) :
  (forall x, In x xs <-> In x ys) -> is_min_of m xs -> is_min_of m ys.
Proof.
  intros Hsame [Hin Hall]. rewrite Forall_forall in Hall. split.
  - now apply Hsame.
  - apply Forall_forall. intros y Hy. apply Hall. now apply Hsame.
Qed.

Lemma is_max_of_same_entries (M : Q) (xs ys : list Q) :
  (forall x, In x xs <-> In x ys) -> is_max_of M xs -> is_max_of M ys.
Proof.
  intros Hsame [Hin Hall]. rewrite Forall_forall in Hall. split.
  - now apply Hsame.
  - apply Forall_forall. intros y Hy. apply Hall. now apply Hsame.
Qed.

Lemma map_same_entries {A B : Type} (f : A -> B) (l l' : list A) :
  (forall a, In a l <-> In a l') ->
  forall b, In b (map f l) <-> In b (map f l').
Proof.
  intros Hsame b. rewrite !in_map_iff.
  split; intros (a & Ha & Hin); exists a; (split; [exact Ha|]);
    now apply Hsame.
Qed.

(** The endpoints of the extracted edges are the projected vertices that
    some unique edge mentions. *)
Lemma flatten_edges_entries (cos_a sin_a : Q) (mesh : Trimesh)
    (view : string) (edges : list (point2 * point2)) :
  get_outline_edges cos_a sin_a mesh view = Ok edges ->
  (forall i, (i < length (vertices mesh))%nat ->
             exists e, In e (edges_unique mesh) /\ (fst e = i \/ snd e = i)) ->
  forall p, In p (flatten_edges edges) <->
            In p (get_projection cos_a sin_a mesh view).
Proof.
  intros He Hcover p. unfold flatten_edges. rewrite in_flat_map. split.
  - intros (e & Hin & Hp).
    unfold get_outline_edges in He.
    destruct (mapM_In_inv _ _ _ _ He Hin) as ([i j] & _ & Hf).
    cbn [fst snd] in Hf.
    destruct (getitem _ i) as [p_i|] eqn:Ei; cbn [bind] in Hf; [|discriminate].
    destruct (getitem _ j) as [p_j|] eqn:Ej; cbn [bind] in Hf; [|discriminate].
    injection Hf as <-. apply getitem_Ok in Ei, Ej. cbn [fst snd] in Hp.
    destruct Hp as [<-|[<-|[]]]; eapply nth_error_In; eassumption.
  - intros Hp. apply In_nth_error in Hp. destruct Hp as [i Hi].
    assert (Hlt : (i < length (vertices mesh))%nat).
    { rewrite <- (get_projection_length cos_a sin_a mesh view).
      apply nth_error_Some. congruence. }
    destruct (Hcover i Hlt) as ([a b] & Hin & Hab).
    apply In_nth_error in Hin. destruct Hin as [k Hk].
    destruct (get_outline_edges_nth _ _ _ _ _ He) as [_ Hnth].
    destruct (Hnth k a b Hk) as (p_a & p_b & Ha & Hb & Hek).
    exists (p_a, p_b). split; [eapply nth_error_In; exact Hek|].
    cbn [fst snd] in *. destruct Hab as [-> | ->].
    + left. congruence.
    + right. left. congruence.
Qed.

(** When every vertex is an endpoint of some unique edge, the edge modes
    and the 'filled' mode normalize against the same bounding box: the
    minimum corner and the scale computed from the flattened edge
    endpoints are those computed from the whole projection, so lines and
    polygons are drawn in the same frame. *)
Theorem edge_and_filled_modes_share_the_frame
    (cos_a sin_a : Q) (mesh : Trimesh) (view : string) (size : Z) :
  mesh_wf mesh -> edges_unique mesh <> [] ->
  (forall i, (i < length (vertices mesh))%nat ->
             exists e, In e (edges_unique mesh) /\ (fst e = i \/ snd e = i)) ->
  exists edges min_e norm_e scale_e min_f norm_f scale_f,
    get_outline_edges cos_a sin_a mesh view = Ok edges /\
    array_min (flatten_edges edges) = Ok min_e /\
    normalize_coords (flatten_edges edges) size default_margin
    = Ok (norm_e, scale_e) /\
    array_min (get_projection cos_a sin_a mesh view) = Ok min_f /\
    normalize_coords (get_projection cos_a sin_a mesh view) size default_margin
    = Ok (norm_f, scale_f) /\
    pt_eq min_e min_f /\ scale_e == scale_f.
Proof.
  intros Hwf Hne Hcover.
  destruct (get_outline_edges_total cos_a sin_a mesh view Hwf) as [edges He].
  destruct (get_outline_edges_nth _ _ _ _ _ He) as [Hlen _].
  assert (Hedges : edges <> []).
  { intros ->. apply Hne. apply length_zero_iff_nil. now rewrite <- Hlen. }
  pose proof (flatten_edges_nonempty edges Hedges) as Hflat.
  pose proof (flatten_edges_entries _ _ _ _ _ He Hcover) as Hsame.
  assert (Hproj : get_projection cos_a sin_a mesh view <> []).
  { destruct (flatten_edges edges) as [|p0 rest] eqn:E; [congruence|].
    intros Hnil. rewrite Hnil in Hsame.
    apply (proj1 (Hsame p0)). now left. }
  destruct (array_min_spec _ Hflat) as (mn_e & Hmn_e & Hx_e & Hy_e).
  destruct (array_max_spec _ Hflat) as (mx_e & Hmx_e & HX_e & HY_e).
  destruct (array_min_spec _ Hproj) as (mn_f & Hmn_f & Hx_f & Hy_f).
  destruct (array_max_spec _ Hproj) as (mx_f & Hmx_f & HX_f & HY_f).
  pose proof (map_same_entries fst _ _ Hsame) as Sx.
  pose proof (map_same_entries snd _ _ Hsame) as Sy.
  pose proof (is_min_of_unique _ _ _
                (is_min_of_same_entries _ _ _ Sx Hx_e) Hx_f) as Ex.
  pose proof (is_min_of_unique _ _ _
                (is_min_of_same_entries _ _ _ Sy Hy_e) Hy_f) as Ey.
  pose proof (is_max_of_unique _ _ _
                (is_max_of_same_entries _ _ _ Sx HX_e) HX_f) as EX.
  pose proof (is_max_of_unique _ _ _
                (is_max_of_same_entries _ _ _ Sy HY_e) HY_f) as EY.
  assert (Hdiv : divisor mn_e mx_e == divisor mn_f mx_f).
  { unfold divisor. apply py_max_compat; apply where_zero_one_compat.
    - rewrite Ex, EX. reflexivity.
    - rewrite Ey, EY. reflexivity. }
  exists edges, mn_e. eexists _, _. exists mn_f. eexists _, _.
  split; [exact He|]. split; [exact Hmn_e|].
  split; [apply (normalize_coords_eq _ _ _ _ _ Hmn_e Hmx_e)|].
  split; [exact Hmn_f|].
  split; [apply (normalize_coords_eq _ _ _ _ _ Hmn_f Hmx_f)|].
  split; [split; assumption|].
  now rewrite Hdiv.
Qed.

Lemma edge_and_filled_modes_share_the_frame_witness :
  exists edges min_e norm_e scale_e min_f norm_f scale_f,
    get_outline_edges cos_45 sin_45 triangle_mesh "top" = Ok edges /\
    array_min (flatten_edges edges) = Ok min_e /\
    normalize_coords (flatten_edges edges) 1000 default_margin
    = Ok (norm_e, scale_e) /\
    array_min (get_projection cos_45 sin_45 triangle_mesh "top") = Ok min_f /\
    normalize_coords (get_projection cos_45 sin_45 triangle_mesh "top")
                     1000 default_margin
    = Ok (norm_f, scale_f) /\
    pt_eq min_e min_f /\ scale_e == scale_f.
Proof.
  apply (edge_and_filled_modes_share_the_frame
           cos_45 sin_45 triangle_mesh "top" 1000).
  - split; repeat constructor; simpl; lia.
  - discriminate.
  - intros i Hi. simpl in Hi.
    destruct i as [|[|[|i]]]; [| | |lia].
    + exists (0, 1)%nat. simpl. auto.
    + exists (0, 1)%nat. simpl. auto.
    + exists (1, 2)%nat. simpl. auto.
Defined.
